(** * two1.bitcoin: blocks, merkle trees, compact targets and proof of work

    A shallow embedding of [two1/bitcoin/utils.py] and
    [two1/bitcoin/block.py] (Python 3), and the properties of the
    natural-language specification checked against it.

    Conventions of the embedding.
    - A Python [int] is a [Z]; [bytes] is a [list byte].
    - A Python call either returns, raises an exception or does not
      terminate: [outcome].
    - Methods that mutate [self] are functions in the state-and-exception
      monad [M S]: an exception leaves the mutations made before it in
      place, exactly as in Python.
    - An attribute that an object may not have (Python then raises
      [AttributeError] on reading it) is an [option] field. *)

From Stdlib Require Import String HexadecimalString Strings.Byte.
From Stdlib Require Import ZArith QArith SpecFloat List Lia Bool.
Import ListNotations.
Local Open Scope Z_scope.

Set Implicit Arguments.

(** ** Python runtime: outcomes, exceptions, bytes *)

Module Py.

(** The error conditions named by the specification (its section 7).
    No code path of the two source files raises a class of these
    names; they appear in the statements that compare the
    specification with the code. *)
Inductive condition : Type :=
| TruncatedInput
| DecodeError
| InvalidCoinbase
| UninitializedBlock.

(** The exception classes the code can raise: Python's built-in ones
    and [struct.error]. *)
Inductive exn : Type :=
| AttributeError
| IndexError
| TypeError
| ValueError
| ZeroDivisionError
| OverflowError
| RecursionError
| StructError
| SpecCondition (c : condition).

Inductive outcome (A : Type) : Type :=
| Ok (a : A)
| Raise (e : exn)
| Diverges.

Arguments Raise {A} e.
Arguments Diverges {A}.

Definition obind {A B} (m : outcome A) (k : A -> outcome B) : outcome B :=
  match m with
  | Ok a => k a
  | Raise e => Raise e
  | Diverges => Diverges
  end.

Definition is_ok {A} (m : outcome A) : bool :=
  match m with Ok _ => true | _ => false end.

(** State and exceptions: the state reached is kept whatever the
    outcome. *)
Definition M (S A : Type) : Type := S -> outcome A * S.

Definition ret {S A} (a : A) : M S A := fun s => (Ok a, s).
Definition raise {S A} (e : exn) : M S A := fun s => (Raise e, s).
Definition diverge {S A} : M S A := fun s => (Diverges, s).
Definition get {S} : M S S := fun s => (Ok s, s).
Definition put {S} (s : S) : M S unit := fun _ => (Ok tt, s).
Definition modify {S} (f : S -> S) : M S unit := fun s => (Ok tt, f s).
Definition lift {S A} (m : outcome A) : M S A := fun s => (m, s).

Definition bind {S A B} (m : M S A) (k : A -> M S B) : M S B :=
  fun s =>
    match m s with
    | (Ok a, s') => k a s'
    | (Raise e, s') => (Raise e, s')
    | (Diverges, s') => (Diverges, s')
    end.

End Py.
Import Py.

Declare Scope py_scope.
Delimit Scope py_scope with py.
Notation "'let?' x ':=' m 'in' k" := (obind m (fun x => k))
  (at level 10, x pattern, m at level 100, k at level 200) : py_scope.
Notation "x <- m ;; k" := (bind m (fun x => k))
  (at level 100, m at next level, right associativity) : py_scope.
Notation "m ;; k" := (bind m (fun _ => k))
  (at level 100, right associativity) : py_scope.
Local Open Scope py_scope.

Definition bytes : Type := list byte.

Definition byte_to_Z (b : byte) : Z := Z.of_N (Byte.to_N b).

Definition byte_of_Z (z : Z) : byte :=
  match Byte.of_N (Z.to_N (z mod 256)) with
  | Some b => b
  | None => x00
  end.

(** [bytes(n)]: [n] zero bytes. *)
Definition zero_bytes (n : nat) : bytes := repeat x00 n.

(** [b[i:j]] for [0 <= i <= j]: slicing never raises, it truncates. *)
Definition slice (i j : nat) (b : bytes) : bytes := firstn (j - i) (skipn i b).

(** [int.from_bytes(b, 'little')] and [int.from_bytes(b, 'big')]. *)
Fixpoint int_from_bytes_little (b : bytes) : Z :=
  match b with
  | [] => 0
  | x :: r => byte_to_Z x + 256 * int_from_bytes_little r
  end.

Definition int_from_bytes_big (b : bytes) : Z := int_from_bytes_little (rev b).

(** The [n] low bytes of [z], least significant first. *)
Fixpoint int_to_bytes_little (n : nat) (z : Z) : bytes :=
  match n with
  | O => []
  | S n' => byte_of_Z z :: int_to_bytes_little n' (z / 256)
  end.

(** ** struct: fixed-width packing *)

Module Struct.

(** [struct.pack('<' + c, i)] for an unsigned format character of
    [n] bytes: [struct.error] when [i] is out of range. *)
Definition pack_le (n : nat) (i : Z) : outcome bytes :=
  if (0 <=? i) && (i <? 256 ^ Z.of_nat n)
  then Ok (int_to_bytes_little n i)
  else Raise StructError.

(** [struct.unpack('<' + c, b)[0]]: [struct.error] unless [b] has
    exactly [n] bytes. *)
Definition unpack_le (n : nat) (b : bytes) : outcome Z :=
  if Nat.eqb (length b) n
  then Ok (int_from_bytes_little b)
  else Raise StructError.

(** One ['>I'] item. *)
Definition pack_be32 (i : Z) : outcome bytes :=
  let? b := pack_le 4 i in Ok (rev b).

(** [struct.pack('>8I', *ws)]: the argument count must be eight. *)
Fixpoint pack_be32_all (ws : list Z) : outcome bytes :=
  match ws with
  | [] => Ok []
  | w :: r =>
      let? b := pack_be32 w in
      let? br := pack_be32_all r in
      Ok (b ++ br)
  end.

Definition pack_be_8I (ws : list Z) : outcome bytes :=
  if Nat.eqb (length ws) 8 then pack_be32_all ws else Raise StructError.

End Struct.

(** ** hashlib.sha256 (FIPS 180-4) *)

Module SHA256.

Definition add32 (a b : Z) : Z := (a + b) mod 2 ^ 32.
Definition rotr (n x : Z) : Z :=
  Z.lor (Z.shiftr x n) (Z.shiftl x (32 - n) mod 2 ^ 32).
Definition not32 (x : Z) : Z := Z.lxor x 0xffffffff.

Definition Ch (x y z : Z) : Z := Z.lxor (Z.land x y) (Z.land (not32 x) z).
Definition Maj (x y z : Z) : Z :=
  Z.lxor (Z.land x y) (Z.lxor (Z.land x z) (Z.land y z)).
Definition BSig0 (x : Z) : Z := Z.lxor (rotr 2 x) (Z.lxor (rotr 13 x) (rotr 22 x)).
Definition BSig1 (x : Z) : Z := Z.lxor (rotr 6 x) (Z.lxor (rotr 11 x) (rotr 25 x)).
Definition SSig0 (x : Z) : Z := Z.lxor (rotr 7 x) (Z.lxor (rotr 18 x) (Z.shiftr x 3)).
Definition SSig1 (x : Z) : Z := Z.lxor (rotr 17 x) (Z.lxor (rotr 19 x) (Z.shiftr x 10)).

(** The primes below 312: the first 64 primes. *)
Definition is_prime (n : Z) : bool :=
  forallb (fun d => negb (n mod d =? 0) || (n <=? d))
          (map Z.of_nat (seq 2 17)).

Definition primes : list Z := filter is_prime (map Z.of_nat (seq 2 310)).

(** Integer cube root by bisection: [lo ^ 3 <= n < hi ^ 3]. *)
Fixpoint cbrt_between (steps : nat) (lo hi n : Z) : Z :=
  match steps with
  | O => lo
  | S k =>
      let mid := (lo + hi) / 2 in
      if mid * mid * mid <=? n then cbrt_between k mid hi n
      else cbrt_between k lo mid n
  end.

(** The round constants: the first 32 bits of the fractional parts of
    the cube roots of the first 64 primes. *)
Definition K : list Z :=
  Eval vm_compute in
    map (fun p => cbrt_between 40 0 (2 ^ 35) (p * 2 ^ 96) mod 2 ^ 32) primes.

(** The chaining value: eight 32-bit words. *)
Record state : Type := mkState {
  sa : Z; sb : Z; sc : Z; sd : Z; se : Z; sf : Z; sg : Z; sh : Z
}.

(** The initial value: the first 32 bits of the fractional parts of
    the square roots of the first 8 primes. *)
Definition iv_word (i : nat) : Z := Z.sqrt (nth i primes 0 * 2 ^ 64) mod 2 ^ 32.

Definition IV : state :=
  Eval vm_compute in
    mkState (iv_word 0) (iv_word 1) (iv_word 2) (iv_word 3)
            (iv_word 4) (iv_word 5) (iv_word 6) (iv_word 7).

Definition words (s : state) : list Z :=
  [sa s; sb s; sc s; sd s; se s; sf s; sg s; sh s].

(** Big-endian 32-bit words of a block. *)
Fixpoint be_words (b : bytes) : list Z :=
  match b with
  | b0 :: b1 :: b2 :: b3 :: r => int_from_bytes_big [b0; b1; b2; b3] :: be_words r
  | _ => []
  end.

(** The message schedule, most recent word first. *)
Fixpoint schedule (n : nat) (w : list Z) : list Z :=
  match n with
  | O => w
  | S n' =>
      let x := add32 (add32 (SSig1 (nth 1 w 0)) (nth 6 w 0))
                     (add32 (SSig0 (nth 14 w 0)) (nth 15 w 0)) in
      schedule n' (x :: w)
  end.

Definition round (s : state) (kw : Z * Z) : state :=
  let t1 := add32 (add32 (add32 (sh s) (BSig1 (se s)))
                         (add32 (Ch (se s) (sf s) (sg s)) (fst kw))) (snd kw) in
  let t2 := add32 (BSig0 (sa s)) (Maj (sa s) (sb s) (sc s)) in
  mkState (add32 t1 t2) (sa s) (sb s) (sc s) (add32 (sd s) t1) (se s) (sf s) (sg s).

Definition compress (s : state) (block : bytes) : state :=
  let w := rev (schedule 48 (rev (be_words block))) in
  let r := fold_left round (combine K w) s in
  mkState (add32 (sa s) (sa r)) (add32 (sb s) (sb r))
          (add32 (sc s) (sc r)) (add32 (sd s) (sd r))
          (add32 (se s) (se r)) (add32 (sf s) (sf r))
          (add32 (sg s) (sg r)) (add32 (sh s) (sh r)).

(** Absorb the complete 64-byte blocks of [b]; [n] bounds their number. *)
Fixpoint absorb (n : nat) (s : state) (b : bytes) : state :=
  match n with
  | O => s
  | S n' =>
      if Nat.leb 64 (length b)
      then absorb n' (compress s (firstn 64 b)) (skipn 64 b)
      else s
  end.

Definition pad (m : bytes) : bytes :=
  let l := Z.of_nat (length m) in
  m ++ x80 :: zero_bytes (Z.to_nat ((55 - l) mod 64))
    ++ rev (int_to_bytes_little 8 (8 * l)).

Definition digest_of (s : state) : bytes :=
  flat_map (fun w => rev (int_to_bytes_little 4 w)) (words s).

(** [hashlib.sha256(m).digest()]. *)
Definition sha256 (m : bytes) : bytes :=
  let p := pad m in
  digest_of (absorb (length p) IV p).

End SHA256.

(** ** Python numbers: [int] and [float] with their dynamic typing *)

Module PyNum.

(** A numeric value is an [int] (unbounded) or a [float] (binary64,
    as a [spec_float]). *)
Inductive value : Type :=
| PyInt (z : Z)
| PyFloat (f : spec_float).

Definition prec : Z := 53.
Definition emax : Z := 1024.

(** [float(z)]: the nearest double, [OverflowError] beyond the range. *)
Definition float_of_int (z : Z) : outcome spec_float :=
  match binary_normalize prec emax z 0 false with
  | S754_infinity _ => Raise OverflowError
  | f => Ok f
  end.

Definition to_float (v : value) : outcome spec_float :=
  match v with
  | PyInt z => float_of_int z
  | PyFloat f => Ok f
  end.

(** An [int] as an exact (not normalised) significand. *)
Definition exact_of_int (z : Z) : spec_float :=
  match z with
  | Z0 => S754_zero false
  | Zpos p => S754_finite false p 0
  | Zneg p => S754_finite true p 0
  end.

(** [a / b]: true division. On two ints the result is the double
    nearest the exact quotient. *)
Definition truediv (a b : value) : outcome value :=
  match a, b with
  | PyInt x, PyInt y =>
      if y =? 0 then Raise ZeroDivisionError
      else match SFdiv prec emax (exact_of_int x) (exact_of_int y) with
           | S754_infinity _ => Raise OverflowError
           | f => Ok (PyFloat f)
           end
  | _, _ =>
      let? x := to_float a in
      let? y := to_float b in
      match y with
      | S754_zero _ => Raise ZeroDivisionError
      | _ => Ok (PyFloat (SFdiv prec emax x y))
      end
  end.

(** [a // b] on ints: floor division. *)
Definition floordiv_int (a b : Z) : outcome Z :=
  if b =? 0 then Raise ZeroDivisionError else Ok (a / b).

Definition arith (fi : Z -> Z -> Z) (ff : spec_float -> spec_float -> spec_float)
           (a b : value) : outcome value :=
  match a, b with
  | PyInt x, PyInt y => Ok (PyInt (fi x y))
  | _, _ =>
      let? x := to_float a in
      let? y := to_float b in
      Ok (PyFloat (ff x y))
  end.

Definition add : value -> value -> outcome value := arith Z.add (SFadd prec emax).
Definition sub : value -> value -> outcome value := arith Z.sub (SFsub prec emax).
Definition mul : value -> value -> outcome value := arith Z.mul (SFmul prec emax).

(** [a << n] and [a >> n] on ints: [ValueError] on a negative count. *)
Definition lshift_int (a n : Z) : outcome Z :=
  if n <? 0 then Raise ValueError else Ok (Z.shiftl a n).
Definition rshift_int (a n : Z) : outcome Z :=
  if n <? 0 then Raise ValueError else Ok (Z.shiftr a n).

(** The shift operators are defined on ints only: a float operand is
    a [TypeError]. *)
Definition lshift (a n : value) : outcome value :=
  match a, n with
  | PyInt x, PyInt y => let? r := lshift_int x y in Ok (PyInt r)
  | _, _ => Raise TypeError
  end.
Definition rshift (a n : value) : outcome value :=
  match a, n with
  | PyInt x, PyInt y => let? r := rshift_int x y in Ok (PyInt r)
  | _, _ => Raise TypeError
  end.

(** The exact rational value of a finite float (0 for the others). *)
Definition Q_of_float (f : spec_float) : Q :=
  match f with
  | S754_finite s m e =>
      let n := if s then Zneg m else Zpos m in
      match e with
      | Z0 => inject_Z n
      | Zpos p => inject_Z (n * 2 ^ Zpos p)
      | Zneg p => Qmake n (2 ^ p)
      end
  | _ => 0%Q
  end.

Definition is_finite (f : spec_float) : bool :=
  match f with
  | S754_finite _ _ _ | S754_zero _ => true
  | _ => false
  end.

(** [v == q] for a number [v] and an exact rational [q]: Python
    compares the exact values. *)
Definition eq_Q (v : value) (q : Q) : bool :=
  match v with
  | PyInt z => Qeq_bool (inject_Z z) q
  | PyFloat f => is_finite f && Qeq_bool (Q_of_float f) q
  end.

End PyNum.
Import PyNum.

(** ** two1/bitcoin/utils.py *)

(** [dhash(s)]. *)
Definition dhash (s : bytes) : bytes := SHA256.sha256 (SHA256.sha256 s).

(** [pack_compact_int(i)]. *)
Definition pack_compact_int (i : Z) : outcome bytes :=
  if i <? 0xfd then Struct.pack_le 1 i
  else if i <=? 0xffff then
    let? b := Struct.pack_le 2 i in Ok (xfd :: b)
  else if i <=? 0xffffffff then
    let? b := Struct.pack_le 4 i in Ok (xfe :: b)
  else
    let? b := Struct.pack_le 8 i in Ok (xff :: b).

(** [unpack_compact_int(bytestr)]. The result is an [option]: the last
    [else] of the source returns Python's [None]. *)
Definition unpack_compact_int (bytestr : bytes) : outcome (option (Z * bytes)) :=
  match bytestr with
  | [] => Raise IndexError
  | b :: _ =>
      let b0 := byte_to_Z b in
      if b0 <? 0xfd then Ok (Some (b0, skipn 1 bytestr))
      else if b0 =? 0xfd then
        let? n := Struct.unpack_le 2 (slice 1 3 bytestr) in Ok (Some (n, skipn 3 bytestr))
      else if b0 =? 0xfe then
        let? n := Struct.unpack_le 4 (slice 1 5 bytestr) in Ok (Some (n, skipn 5 bytestr))
      else if b0 =? 0xff then
        let? n := Struct.unpack_le 8 (slice 1 9 bytestr) in Ok (Some (n, skipn 9 bytestr))
      else Ok None
  end.

(** [x, y = v]: unpacking [None] is a [TypeError]. *)
Definition unpack_pair {A B} (v : option (A * B)) : outcome (A * B) :=
  match v with
  | Some p => Ok p
  | None => Raise TypeError
  end.

(** [pack_u32(i)]. *)
Definition pack_u32 (i : Z) : outcome bytes := Struct.pack_le 4 i.

(** [unpack_u32(b)]. *)
Definition unpack_u32 (b : bytes) : outcome (Z * bytes) :=
  let? u32 := Struct.unpack_le 4 (slice 0 4 b) in
  Ok (u32, skipn 4 b).

(** [decode_compact_target(bits)]. *)
Definition decode_compact_target (bits : Z) : outcome Z :=
  let shift := Z.shiftr bits 24 in
  let? p := lshift_int 1 (8 * (shift - 3)) in
  Ok (Z.land bits 0xffffff * p).

(** ['%x' % target]. *)
Definition format_hex (target : Z) : string :=
  NilZero.string_of_int (Z.to_hex_int target).

(** [encode_compact_target(target)]. [/] is Python 3's true division:
    [shift] is a float. *)
Definition encode_compact_target (target : Z) : outcome value :=
  let hex_target := format_hex target in
  let? shift := truediv (PyInt (Z.of_nat (String.length hex_target) + 1)) (PyInt 2) in
  let? d := sub shift (PyInt 3) in
  let? n := mul (PyInt 8) d in
  let? prefix := rshift (PyInt target) n in
  let? hi := lshift shift (PyInt 24) in
  add hi prefix.

(** [compute_reward(height)]. *)
Definition compute_reward (height : Z) : outcome value :=
  let? era := floordiv_int height 210000 in
  truediv (PyInt (50 * 100000000)) (PyInt (era + 1)).

(** [pack_u64(i)] and [unpack_u64(b)]. *)
Definition pack_u64 (i : Z) : outcome bytes := Struct.pack_le 8 i.

Definition unpack_u64 (b : bytes) : outcome (Z * bytes) :=
  let? u64 := Struct.unpack_le 8 (slice 0 8 b) in
  Ok (u64, skipn 8 b).

(** [pack_var_str(s)]. *)
Definition pack_var_str (s : bytes) : outcome bytes :=
  let? n := pack_compact_int (Z.of_nat (List.length s)) in
  Ok (n ++ s).

(** [unpack_var_str(b)]: the two slices never raise. *)
Definition unpack_var_str (b : bytes) : outcome (bytes * bytes) :=
  let? r := unpack_compact_int b in
  let? (strlen, b0) := unpack_pair r in
  Ok (firstn (Z.to_nat strlen) b0, skipn (Z.to_nat strlen) b0).

(** The [while n:] loop of [render_int], for at most [fuel] tests of
    its condition; [r] is the list built so far. *)
Fixpoint render_int_loop (fuel : nat) (n : Z) (r : list Z) : option (list Z) :=
  match fuel with
  | O => None
  | S fuel' =>
      if n =? 0 then Some r
      else render_int_loop fuel' (Z.shiftr n 8) (r ++ [Z.land n 0xff])
  end.

(** [r[-1]] of a list of ints, with the list before it. *)
Fixpoint split_last (r : list Z) : option (list Z * Z) :=
  match r with
  | [] => None
  | [x] => Some ([], x)
  | x :: r' =>
      match split_last r' with
      | Some (i, l) => Some (x :: i, l)
      | None => None
      end
  end.

(** [bytes(r)] for a list of ints: [ValueError] unless every item is
    in [range(256)]. *)
Fixpoint bytes_of_ints (r : list Z) : outcome bytes :=
  match r with
  | [] => Ok []
  | x :: r' =>
      if (0 <=? x) && (x <? 256)
      then let? b := bytes_of_ints r' in Ok (byte_of_Z x :: b)
      else Raise ValueError
  end.

(** [render_int(n)]. The loop is given one test more than [n] has
    bits, which is enough ([render_int_loop_digits]). *)
Definition render_int (n : Z) : outcome bytes :=
  let neg := n <? 0 in
  let n := if neg then - n else n in
  match render_int_loop (S (Z.to_nat (Z.log2 n + 1))) n [] with
  | None => Diverges
  | Some r =>
      if neg then
        match split_last r with
        | None => Raise IndexError
        | Some (i, l) =>
            if negb (Z.land l 0x80 =? 0) then bytes_of_ints (r ++ [0x80])
            else bytes_of_ints (i ++ [Z.lor l 0x80])
        end
      else
        match split_last r with
        | Some (_, l) =>
            if negb (Z.land l 0x80 =? 0) then bytes_of_ints (r ++ [0])
            else bytes_of_ints r
        | None => bytes_of_ints r
        end
  end.


(** ** two1/bitcoin/block.py *)

(** [MerkleNode = namedtuple('MerkleNode', ['hash', 'left_child',
    'right_child'])]: an immutable record; a child is a node or
    Python's [None]. *)
#[warnings="-register-all"]
Inductive MerkleNode : Type :=
| mkMerkleNode (hash : bytes) (left_child right_child : option MerkleNode).

Module Node.
Definition hash (n : MerkleNode) : bytes :=
  match n with mkMerkleNode h _ _ => h end.
Definition left_child (n : MerkleNode) : option MerkleNode :=
  match n with mkMerkleNode _ l _ => l end.
Definition right_child (n : MerkleNode) : option MerkleNode :=
  match n with mkMerkleNode _ _ r => r end.
End Node.

(** Modelled from the spec: the transaction component
    ([two1.bitcoin.txn], not among the sources), through the four
    observations the block code makes of it: its hash (32 bytes,
    internal order), its serialization, its inputs and whether an input
    is of the coinbase kind. *)
Module Txn.
Inductive Input : Type :=
| CoinbaseInput (script : bytes)
| TransactionInput (outpoint script : bytes).

Record Transaction : Type := mkTransaction {
  inputs : list Input;
  hash : bytes;
  serialized : bytes
}.

Definition num_inputs (t : Transaction) : Z := Z.of_nat (List.length (inputs t)).

(** [isinstance(i, CoinbaseInput)]. *)
Definition is_CoinbaseInput (i : Input) : bool :=
  match i with CoinbaseInput _ => true | TransactionInput _ _ => false end.
End Txn.
Import Txn.

Module BlockHeader.

Record t : Type := mk {
  version : Z;
  prev_block_hash : bytes;
  merkle_root_hash : bytes;
  time : Z;
  bits : Z;
  nonce : Z
}.

Definition set_nonce (n : Z) (h : t) : t :=
  mk (version h) (prev_block_hash h) (merkle_root_hash h) (time h) (bits h) n.
Definition set_merkle_root_hash (r : bytes) (h : t) : t :=
  mk (version h) (prev_block_hash h) r (time h) (bits h) (nonce h).

(** [BlockHeader.from_bytes(b)]. *)
Definition from_bytes (b : bytes) : outcome (t * bytes) :=
  let? (version, b) := unpack_u32 b in
  let '(prev_block_hash, b) := (slice 0 32 b, skipn 32 b) in
  let '(merkle_root_hash, b) := (slice 0 32 b, skipn 32 b) in
  let? (time, b) := unpack_u32 b in
  let? (bits, b) := unpack_u32 b in
  let? (nonce, b) := unpack_u32 b in
  Ok (mk version prev_block_hash merkle_root_hash time bits nonce, b).

(** [bytes(header)]. *)
Definition __bytes__ (self : t) : outcome bytes :=
  let? v := pack_u32 (version self) in
  let? t := pack_u32 (time self) in
  let? b := pack_u32 (bits self) in
  let? n := pack_u32 (nonce self) in
  Ok (v ++ prev_block_hash self ++ merkle_root_hash self ++ t ++ b ++ n).

(** The [hash] property. *)
Definition hash (self : t) : outcome bytes :=
  let? b := __bytes__ self in Ok (dhash b).

End BlockHeader.

Module BlockBase.

(** What [BlockBase]'s methods use of [self]: the header and the
    [target] attribute. *)
Class Self (S : Type) : Type := {
  block_header : S -> BlockHeader.t;
  set_block_header : BlockHeader.t -> S -> S;
  target : S -> option Z
}.

(** The attributes [BlockBase.__init__] sets. *)
Record fields : Type := mkFields {
  f_height : Z;
  f_block_header : BlockHeader.t;
  f_target : Z
}.

Definition __init__ (height version : Z) (prev_block_hash : bytes) (time bits : Z)
  : outcome fields :=
  let block_header :=
    BlockHeader.mk version prev_block_hash (zero_bytes 32) time bits 0 in
  let? target := decode_compact_target bits in
  Ok (mkFields height block_header target).

Section Methods.
Context {S : Type} `{Self S}.

(** [compute_hash(nonce)]. *)
Definition compute_hash (nonce : Z) : M S bytes :=
  modify (fun self =>
    set_block_header (BlockHeader.set_nonce nonce (block_header self)) self) ;;
  self <- get ;;
  lift (BlockHeader.hash (block_header self)).

(** [check_valid_nonce(nonce)]. *)
Definition check_valid_nonce (nonce : Z) : M S bool :=
  hb <- compute_hash nonce ;;
  let h := int_from_bytes_big (rev hb) in
  self <- get ;;
  match target self with
  | Some t => ret (h <? t)
  | None => raise AttributeError
  end.
End Methods.

End BlockBase.

(** Running an initialiser or a method to build an object. *)
Definition construct {S A} (m : M S A) (s : S) : outcome S :=
  match m s with
  | (Ok _, s') => Ok s'
  | (Raise e, _) => Raise e
  | (Diverges, _) => Diverges
  end.

(** *** The merkle tree loop *)

Definition leaf (t : Transaction) : MerkleNode :=
  mkMerkleNode (Txn.hash t) None None.

(** [level_nodes[-1]]. *)
Fixpoint last_node (l : list MerkleNode) : option MerkleNode :=
  match l with
  | [] => None
  | [x] => Some x
  | _ :: r => last_node r
  end.

(** [level_nodes.append(level_nodes[-1])]. *)
Definition append_last (l : list MerkleNode) : list MerkleNode :=
  match last_node l with
  | Some x => l ++ [x]
  | None => l
  end.

(** The [for i in range(0, len(level_nodes), 2)] loop, on a level of
    even length. *)
Fixpoint pair_level (l : list MerkleNode) : list MerkleNode :=
  match l with
  | lft :: rgt :: r =>
      mkMerkleNode (dhash (Node.hash lft ++ Node.hash rgt)) (Some lft) (Some rgt)
        :: pair_level r
  | _ => []
  end.

(** One pass of the body of [while True] that did not return. *)
Definition next_level (level_nodes : list MerkleNode) : list MerkleNode :=
  pair_level (if Nat.odd (List.length level_nodes)
              then append_last level_nodes
              else level_nodes).

(** The [while True] loop, for at most [fuel] passes; [None] when the
    fuel runs out before the loop returns. *)
Fixpoint merkle_loop (fuel : nat) (level_nodes : list MerkleNode) : option MerkleNode :=
  match fuel with
  | O => None
  | S fuel' =>
      match level_nodes with
      | [root] => Some root
      | _ => merkle_loop fuel' (next_level level_nodes)
      end
  end.

Module Block.

(** A [Block] object. [height] and [target] are set by
    [BlockBase.__init__] only and [txns] by [Block.__init__] only;
    [transactions] is set by [from_blockheader] only: these four are
    attributes an object may lack. [merkle_tree] is Python's [None]
    until [compute_merkle_tree] has run. *)
Record t : Type := mk {
  height : option Z;
  block_header : BlockHeader.t;
  target : option Z;
  txns : option (list Transaction);
  transactions : option (list Transaction);
  merkle_tree : option MerkleNode
}.

Definition set_block_header (h : BlockHeader.t) (b : t) : t :=
  mk (height b) h (target b) (txns b) (transactions b) (merkle_tree b).
Definition set_txns (l : list Transaction) (b : t) : t :=
  mk (height b) (block_header b) (target b) (Some l) (transactions b) (merkle_tree b).
Definition set_merkle_tree (n : option MerkleNode) (b : t) : t :=
  mk (height b) (block_header b) (target b) (txns b) (transactions b) n.

#[global] Instance base : BlockBase.Self t := {|
  BlockBase.block_header := block_header;
  BlockBase.set_block_header := set_block_header;
  BlockBase.target := target
|}.

(** Reading [self.txns]. *)
Definition getattr_txns : M t (list Transaction) :=
  fun self =>
    match txns self with
    | Some l => (Ok l, self)
    | None => (Raise AttributeError, self)
    end.

(** [compute_merkle_tree()]. The loop is run with as many passes as
    there are leaves, which is enough whenever it returns at all
    ([merkle_loop_enough_fuel], [merkle_loop_empty]). *)
Definition compute_merkle_tree : M t unit :=
  l <- getattr_txns ;;
  let level_nodes := map leaf l in
  match merkle_loop (List.length level_nodes) level_nodes with
  | Some root => modify (set_merkle_tree (Some root))
  | None => diverge
  end.

(** [invalidate()]. *)
Definition invalidate : M t unit :=
  compute_merkle_tree ;;
  self <- get ;;
  match merkle_tree self with
  | Some root =>
      put (set_block_header
             (BlockHeader.set_merkle_root_hash (Node.hash root) (block_header self))
             self)
  | None => raise AttributeError
  end.

(** [self.coinbase_tranaction] (sic): no [Block] has an attribute of
    this name, the property is [coinbase_transaction]. *)
Definition getattr_coinbase_tranaction : M t Transaction :=
  raise AttributeError.

(** [merkle_node.merkle_hash = h]: a namedtuple instance has no
    [__dict__] ([__slots__ = ()]) and [merkle_hash] is not one of its
    fields, so the assignment raises [AttributeError]. *)
Definition setattr_merkle_hash (merkle_node : MerkleNode) (h : bytes) : M t unit :=
  raise AttributeError.

(** The body of [invalidate_coinbase] at a node. [restart] is the
    call [invalidate_coinbase(None)], which the source makes when the
    left child is [None] and the right one is not. Lines 260-262
    (the write of [block_header.merkle_hash]) come after an assignment
    that always raises and are never reached. The interpreter's
    recursion limit is not modelled: on a chain of left children
    deeper than that limit the source raises [RecursionError] before
    it reaches the leaf. The trees [compute_merkle_tree] builds are as
    deep as the binary logarithm of the number of transactions. *)
Fixpoint invalidate_coinbase_at (restart : M t unit) (merkle_node : MerkleNode)
  : M t unit :=
  match merkle_node with
  | mkMerkleNode _ None None =>
      cb <- getattr_coinbase_tranaction ;;
      setattr_merkle_hash merkle_node (Txn.hash cb)
  | mkMerkleNode _ (Some l) r =>
      invalidate_coinbase_at restart l ;;
      match r with
      | Some r' => setattr_merkle_hash merkle_node (dhash (Node.hash l ++ Node.hash r'))
      | None => raise AttributeError
      end
  | mkMerkleNode _ None (Some _) =>
      restart ;;
      raise AttributeError
  end.

(** [invalidate_coinbase(merkle_node=None)]. From the root, a walk
    that restarts repeats itself without end: [RecursionError]. *)
Definition invalidate_coinbase (merkle_node : option MerkleNode) : M t unit :=
  self <- get ;;
  let from_root : M t unit :=
    match merkle_tree self with
    | Some root => invalidate_coinbase_at (raise RecursionError) root
    | None => raise AttributeError
    end in
  match merkle_node with
  | None => from_root
  | Some n => invalidate_coinbase_at from_root n
  end.

(** The [coinbase_transaction] getter: [self.txns[0]]. *)
Definition coinbase_transaction : M t Transaction :=
  l <- getattr_txns ;;
  match l with
  | cb :: _ => ret cb
  | [] => raise IndexError
  end.

(** The [coinbase_transaction] setter. *)
Definition set_coinbase_transaction (cb_txn : Transaction) : M t unit :=
  if negb (Txn.num_inputs cb_txn =? 1) then raise ValueError
  else
    match Txn.inputs cb_txn with
    | [] => raise IndexError
    | i :: _ =>
        if negb (Txn.is_CoinbaseInput i) then raise TypeError
        else
          l <- getattr_txns ;;
          match l with
          | [] => raise IndexError
          | _ :: r => modify (set_txns (cb_txn :: r))
          end ;;
          invalidate_coinbase None
    end.

(** [Block(height, version, prev_block_hash, time, bits, nonce, txns)]. *)
Definition __init__ (height version : Z) (prev_block_hash : bytes)
           (time bits nonce : Z) (txns : list Transaction) : outcome t :=
  let? f := BlockBase.__init__ height version prev_block_hash time bits in
  let self :=
    mk (Some (BlockBase.f_height f))
       (BlockHeader.set_nonce nonce (BlockBase.f_block_header f))
       (Some (BlockBase.f_target f))
       (Some txns) None None in
  construct invalidate self.

(** [Block.from_blockheader(bh, txns)]: the object is made by
    [cls.__new__], so [BlockBase.__init__] and [Block.__init__] do
    not run. *)
Definition from_blockheader (bh : BlockHeader.t) (txns : list Transaction)
  : outcome t :=
  let self := mk None bh None None (Some txns) None in
  construct invalidate self.

(** The [hash] property. *)
Definition hash (self : t) : outcome bytes :=
  BlockHeader.hash (block_header self).

(** [bytes(block)]. *)
Definition __bytes__ (self : t) : outcome bytes :=
  let? h := BlockHeader.__bytes__ (block_header self) in
  match txns self with
  | None => Raise AttributeError
  | Some l =>
      let? n := pack_compact_int (Z.of_nat (List.length l)) in
      Ok (h ++ n ++ flat_map Txn.serialized l)
  end.

Section Parsing.
(** [Transaction.from_bytes], of the transaction component. *)
Variable Transaction_from_bytes : bytes -> outcome (Transaction * bytes).

(** The [for i in range(num_txns)] loop of [from_bytes]. *)
Fixpoint parse_txns (n : nat) (b : bytes) : outcome (list Transaction * bytes) :=
  match n with
  | O => Ok ([], b)
  | S n' =>
      let? (t, b) := Transaction_from_bytes b in
      let? (l, b) := parse_txns n' b in
      Ok (t :: l, b)
  end.

(** [Block.from_bytes(b)]. *)
Definition from_bytes (b : bytes) : outcome (t * bytes) :=
  let? (bh, b) := BlockHeader.from_bytes b in
  let? r := unpack_compact_int b in
  let? (num_txns, b) := unpack_pair r in
  let? (txns, b) := parse_txns (Z.to_nat num_txns) b in
  let? blk := from_blockheader bh txns in
  Ok (blk, b).
End Parsing.

End Block.

(** Modelled from the spec: [two1.bitcoin.sha256.sha256(data).mid_state]
    (that module is not among the sources): the compression state
    after the complete 64-byte blocks of [data], eight 32-bit words. *)
Definition sha256_midstate (data : bytes) : list Z :=
  SHA256.words (SHA256.absorb (List.length data) SHA256.IV data).

Module CompactBlock.

(** A [CompactBlock] object. [_cb_txn] is Python's [None] when no
    coinbase was given; the attribute [_midstate] does not exist
    until [_compute_midstate] has run. *)
Record t : Type := mk {
  height : Z;
  block_header : BlockHeader.t;
  target : Z;
  merkle_edge : list bytes;
  _cb_txn : option Transaction;
  _midstate : option bytes
}.

Definition set_block_header (h : BlockHeader.t) (b : t) : t :=
  mk (height b) h (target b) (merkle_edge b) (_cb_txn b) (_midstate b).
Definition set_cb_txn (c : option Transaction) (b : t) : t :=
  mk (height b) (block_header b) (target b) (merkle_edge b) c (_midstate b).
Definition set_midstate (m : bytes) (b : t) : t :=
  mk (height b) (block_header b) (target b) (merkle_edge b) (_cb_txn b) (Some m).

#[global] Instance base : BlockBase.Self t := {|
  BlockBase.block_header := block_header;
  BlockBase.set_block_header := set_block_header;
  BlockBase.target := fun b => Some (target b)
|}.

(** [_complete_merkle_edge()]. *)
Definition _complete_merkle_edge : M t unit :=
  self <- get ;;
  match _cb_txn self with
  | None => ret tt
  | Some cb =>
      let cur_hash :=
        fold_left (fun cur_hash e => dhash (cur_hash ++ e))
                  (merkle_edge self) (Txn.hash cb) in
      put (set_block_header
             (BlockHeader.set_merkle_root_hash cur_hash (block_header self)) self)
  end.

(** [_compute_midstate()]. *)
Definition _compute_midstate : M t unit :=
  self <- get ;;
  hb <- lift (BlockHeader.__bytes__ (block_header self)) ;;
  m <- lift (Struct.pack_be_8I (sha256_midstate (slice 0 64 hb))) ;;
  modify (set_midstate m).

(** The [coinbase_transaction] getter and setter. *)
Definition coinbase_transaction (self : t) : option Transaction := _cb_txn self.

Definition set_coinbase_transaction (cb_txn : Transaction) : M t unit :=
  modify (set_cb_txn (Some cb_txn)) ;;
  _complete_merkle_edge ;;
  _compute_midstate.

(** [CompactBlock(height, version, prev_block_hash, time, bits,
    merkle_edge, cb_txn=None)]. *)
Definition __init__ (height version : Z) (prev_block_hash : bytes)
           (time bits : Z) (merkle_edge : list bytes)
           (cb_txn : option Transaction) : outcome t :=
  let? f := BlockBase.__init__ height version prev_block_hash time bits in
  let self :=
    mk (BlockBase.f_height f)
       (BlockHeader.mk version prev_block_hash (zero_bytes 32) time bits 0)
       (BlockBase.f_target f) merkle_edge None None in
  match cb_txn with
  | Some cb => construct (set_coinbase_transaction cb) self
  | None => Ok self
  end.

End CompactBlock.

(** ** Auxiliary definitions of the statements *)

(** A 32-bit unsigned value. *)
Definition u32 (i : Z) : Prop := 0 <= i < 2 ^ 32.

Definition state_u32 (s : SHA256.state) : Prop := Forall u32 (SHA256.words s).

(** [decode(encode(decode(bits)))] as the specification writes it. *)
Definition target_round_trip (bits : Z) : outcome Z :=
  let? t := decode_compact_target bits in
  let? e := encode_compact_target t in
  match e with
  | PyInt z => decode_compact_target z
  | PyFloat _ => Raise TypeError
  end.

(** *** The merkle construction in the specification's words

    Section 4.3: leaves are the transaction hashes; while more than one
    node remains, an odd level has its last node duplicated and
    consecutive nodes are paired, a pair giving
    [double_hash(left.hash || right.hash)]. On hashes alone: *)
Fixpoint spec_pairs (hs : list bytes) : list bytes :=
  match hs with
  | a :: b :: r => dhash (a ++ b) :: spec_pairs r
  | [a] => [dhash (a ++ a)]
  | [] => []
  end.

(** The root of the specification's procedure after at most [n]
    levels; it stops at the first level of exactly one node. *)
Fixpoint spec_root_within (n : nat) (hs : list bytes) : option bytes :=
  match hs, n with
  | [h], _ => Some h
  | _, O => None
  | _, S n' => spec_root_within n' (spec_pairs hs)
  end.

(** The levels shrink, so as many levels as there are leaves are
    enough; without leaves the procedure never reaches one node. *)
Definition spec_root (hs : list bytes) : option bytes :=
  spec_root_within (List.length hs) hs.

(** Every inner node carries the double hash of its children's
    hashes, and a node has both children or none. *)
Fixpoint consistent (n : MerkleNode) : Prop :=
  match n with
  | mkMerkleNode _ None None => True
  | mkMerkleNode h (Some l) (Some r) =>
      h = dhash (Node.hash l ++ Node.hash r) /\ consistent l /\ consistent r
  | _ => False
  end.

(** The parent of a pair of nodes (section 4.3). *)
Definition spec_parent (lft rgt : MerkleNode) : MerkleNode :=
  mkMerkleNode (dhash (Node.hash lft ++ Node.hash rgt)) (Some lft) (Some rgt).

(** The tree the bottom-up procedure arrives at, described from the
    root down. Over at most [2 ^ depth] nodes: at depth 0 the node
    itself; otherwise the first [2 ^ (depth - 1)] nodes make the left
    subtree and the others the right one, and where no others are left
    the right subtree is the left one again (the duplicated last
    node of an odd level, seen from above). *)
Fixpoint join_over (depth : nat) (l : list MerkleNode) : MerkleNode :=
  match depth with
  | O => hd (mkMerkleNode [] None None) l
  | S d =>
      if (List.length l <=? 2 ^ d)%nat
      then spec_parent (join_over d l) (join_over d l)
      else spec_parent (join_over d (firstn (2 ^ d) l)) (join_over d (skipn (2 ^ d) l))
  end.

(** The merkle tree over a list of transaction hashes: childless
    leaves carrying the hashes, joined to the least depth that holds
    them all. *)
Definition tree_over (hs : list bytes) : MerkleNode :=
  join_over (Nat.log2_up (List.length hs))
            (map (fun h => mkMerkleNode h None None) hs).

(** The incremental coinbase update in the specification's words
    (section 4.3): the leftmost leaf takes the new hash and every node
    on the path to the root becomes
    [double_hash(new_left_subtree_hash || existing_right_sibling_hash)]. *)
Fixpoint spec_update_left_edge (new_hash : bytes) (n : MerkleNode) : MerkleNode :=
  match n with
  | mkMerkleNode _ (Some l) (Some r) =>
      let l' := spec_update_left_edge new_hash l in
      mkMerkleNode (dhash (Node.hash l' ++ Node.hash r)) (Some l') (Some r)
  | mkMerkleNode _ None None => mkMerkleNode new_hash None None
  | _ => n
  end.

(** *** Example data for the evaluations at concrete inputs *)

(** A transaction whose serialization is the single byte [n]; its hash
    is the double hash of the serialization. *)
Definition ex_tx (n : Z) (ins : list Input) : Transaction :=
  mkTransaction ins (dhash [byte_of_Z n]) [byte_of_Z n].

Definition ex_coinbase : Transaction := ex_tx 0 [CoinbaseInput [x01]].
Definition ex_coinbase' : Transaction := ex_tx 9 [CoinbaseInput [x02]].
Definition ex_t1 : Transaction := ex_tx 1 [TransactionInput [x0a] [x0b]].
Definition ex_t2 : Transaction := ex_tx 2 [TransactionInput [x0c] [x0d]].

(** A transaction with two inputs and one with a single input that is
    not of the coinbase kind. *)
Definition ex_two_inputs : Transaction :=
  ex_tx 7 [CoinbaseInput [x01]; TransactionInput [x0a] [x0b]].
Definition ex_spending : Transaction := ex_tx 8 [TransactionInput [x0a] [x0b]].

(** [Block(1, 1, bytes(32), 0, 0x1d00ffff, 0, [coinbase, t1, t2])]. *)
Definition ex_block_init (cb : Transaction) : outcome Block.t :=
  Block.__init__ 1 1 (zero_bytes 32) 0 0x1d00ffff 0 [cb; ex_t1; ex_t2].

(** [CompactBlock(1, 1, bytes(32), 0, bits, [], None)]. *)
Definition ex_compact_init (bits : Z) : outcome CompactBlock.t :=
  CompactBlock.__init__ 1 1 (zero_bytes 32) 0 bits [] None.

Definition no_block : Block.t :=
  Block.mk None (BlockHeader.mk 0 [] [] 0 0 0) None None None None.

(** The blocks [ex_block_init] builds for the two example coinbases. *)
Definition ex_block : Block.t :=
  Eval vm_compute in
    match ex_block_init ex_coinbase with Ok b => b | _ => no_block end.

Definition ex_rebuilt : Block.t :=
  Eval vm_compute in
    match ex_block_init ex_coinbase' with Ok b => b | _ => no_block end.

(** A transaction that the specification's coinbase rule rejects: its
    input count is not one, or its single input is not of the coinbase
    kind. *)
Definition invalid_coinbase (cb_txn : Transaction) : Prop :=
  Txn.num_inputs cb_txn <> 1
  \/ exists i, Txn.inputs cb_txn = [i] /\ Txn.is_CoinbaseInput i = false.

(** A transaction decoder for the examples: one byte per transaction. *)
Definition ex_Transaction_from_bytes (b : bytes) : outcome (Transaction * bytes) :=
  match b with
  | x :: r => Ok (mkTransaction [] (dhash [x]) [x], r)
  | [] => Raise StructError
  end.

(** [bytes(ex_block)]: an 80-byte header, the count 3 and three
    one-byte transactions. *)
Definition ex_block_bytes : bytes :=
  Eval vm_compute in
    match Block.__bytes__ ex_block with Ok b => b | _ => [] end.

(** The laws of the two accessors [BlockBase]'s methods go through:
    writing the header then reading it gives what was written, and
    leaves [target] alone. *)
Class BlockBaseLaws (S : Type) `{BlockBase.Self S} : Prop := {
  header_set : forall (h : BlockHeader.t) (s : S),
      BlockBase.block_header (BlockBase.set_block_header h s) = h;
  target_set : forall (h : BlockHeader.t) (s : S),
      BlockBase.target (BlockBase.set_block_header h s) = BlockBase.target s
}.
Arguments BlockBaseLaws S {_}.

(** The 80-byte header layout of the specification (section 6):
    version(4), prev-hash, merkle-root, time(4), bits(4), nonce(4),
    integers little-endian. *)
Definition header_wire (h : BlockHeader.t) : bytes :=
  int_to_bytes_little 4 (BlockHeader.version h)
  ++ BlockHeader.prev_block_hash h
  ++ BlockHeader.merkle_root_hash h
  ++ int_to_bytes_little 4 (BlockHeader.time h)
  ++ int_to_bytes_little 4 (BlockHeader.bits h)
  ++ int_to_bytes_little 4 (BlockHeader.nonce h).

(** The four integer fields of a header are 32-bit. *)
Definition header_u32 (h : BlockHeader.t) : Prop :=
  u32 (BlockHeader.version h) /\ u32 (BlockHeader.time h)
  /\ u32 (BlockHeader.bits h) /\ u32 (BlockHeader.nonce h).

(** The number [check_valid_nonce] compares with the target: the
    header hash, byte-reversed, read big-endian. *)
Definition hash_number (h : BlockHeader.t) : Z :=
  int_from_bytes_big (rev (dhash (header_wire h))).

(** The merkle root a [CompactBlock] derives from a coinbase hash and
    its merkle edge. *)
Definition edge_root (cb_hash : bytes) (merkle_edge : list bytes) : bytes :=
  fold_left (fun cur_hash e => dhash (cur_hash ++ e)) merkle_edge cb_hash.

(** The header and the block of [ex_compact_init 0x1d00ffff]. *)
Definition ex_compact : CompactBlock.t :=
  Eval vm_compute in
    match ex_compact_init 0x1d00ffff with
    | Ok b => b
    | _ => CompactBlock.mk 0 (BlockHeader.mk 0 [] [] 0 0 0) 0 [] None None
    end.

(** The block of [ex_compact_init 0xffffffff], the largest target. *)
Definition ex_compact_max : CompactBlock.t :=
  Eval vm_compute in
    match ex_compact_init 0xffffffff with
    | Ok b => b
    | _ => CompactBlock.mk 0 (BlockHeader.mk 0 [] [] 0 0 0) 0 [] None None
    end.

(** The number of bytes a compact integer has after its first byte
    (the reference layout): none when the byte is below [0xfd], and 2,
    4 and 8 after the markers [0xfd], [0xfe] and [0xff]. *)
Definition compact_int_tail (b0 : byte) : nat :=
  if byte_to_Z b0 <? 0xfd then 0
  else if byte_to_Z b0 =? 0xfd then 2
  else if byte_to_Z b0 =? 0xfe then 4
  else 8.

(** The little-endian base-256 digits of [n >= 0], the most
    significant one not zero: what the loop of [render_int] appends,
    for [n < 2 ^ k]. *)
Fixpoint le_digits (k : nat) (n : Z) : list Z :=
  match k with
  | O => []
  | S k' => if n =? 0 then [] else Z.land n 0xff :: le_digits k' (Z.shiftr n 8)
  end.

(** The value of a list of base-256 digits, least significant first. *)
Fixpoint ints_value (l : list Z) : Z :=
  match l with
  | [] => 0
  | d :: r => d + 256 * ints_value r
  end.

(** Every item is in [range(256)]. *)
Definition byte_ints (l : list Z) : Prop := Forall (fun d => 0 <= d < 256) l.

(** The merkle edge of a tree, as the docstring of [CompactBlock]
    describes it: the hashes one in from the left edge, that is the
    right siblings of the nodes on the path from the leftmost leaf up
    to the root, lowest first. *)
Fixpoint left_edge (n : MerkleNode) : list bytes :=
  match n with
  | mkMerkleNode _ (Some l) (Some r) => left_edge l ++ [Node.hash r]
  | _ => []
  end.

(** The hash of the leftmost leaf (the coinbase's). *)
Fixpoint leftmost_hash (n : MerkleNode) : bytes :=
  match n with
  | mkMerkleNode _ (Some l) (Some _) => leftmost_hash l
  | mkMerkleNode h _ _ => h
  end.

(** What [_compute_midstate] stores for a header: the eight midstate
    words of its first 64 bytes, each big-endian. *)
Definition packed_midstate (h : BlockHeader.t) : bytes :=
  flat_map (fun w => rev (int_to_bytes_little 4 w))
           (sha256_midstate (slice 0 64 (header_wire h))).

(** * Properties *)





(** ** Bytes and fixed-width integers *)

Lemma byte_to_Z_range (b : byte) : 0 <= byte_to_Z b < 256.
Proof.
  unfold byte_to_Z. pose proof (Byte.to_N_bounded b). lia.
Qed.

Lemma byte_of_to_Z (b : byte) : byte_of_Z (byte_to_Z b) = b.
Proof.
  unfold byte_of_Z, byte_to_Z.
  rewrite Z.mod_small by (pose proof (Byte.to_N_bounded b); lia).
  rewrite N2Z.id, Byte.of_to_N. reflexivity.
Qed.

Lemma byte_to_of_Z (z : Z) : byte_to_Z (byte_of_Z z) = z mod 256.
Proof.
  unfold byte_of_Z, byte_to_Z.
  assert (Hr : 0 <= z mod 256 < 256) by (apply Z.mod_pos_bound; lia).
  destruct (Byte.of_N (Z.to_N (z mod 256))) as [b|] eqn:E.
  - apply Byte.to_of_N in E. rewrite E. lia.
  - apply Byte.of_N_None_iff in E. lia.
Qed.

Lemma int_to_bytes_little_length (n : nat) (z : Z) :
  List.length (int_to_bytes_little n z) = n.
Proof.
  revert z. induction n as [|n IH]; intros z; simpl; [reflexivity|].
  now rewrite IH.
Qed.

Lemma int_from_bytes_little_range (b : bytes) :
  0 <= int_from_bytes_little b < 256 ^ Z.of_nat (List.length b).
Proof.
  induction b as [|x r IH].
  - simpl. lia.
  - cbn [int_from_bytes_little List.length].
    rewrite Nat2Z.inj_succ, Z.pow_succ_r by lia.
    pose proof (byte_to_Z_range x). lia.
Qed.

Lemma int_from_bytes_big_range (b : bytes) :
  0 <= int_from_bytes_big b < 256 ^ Z.of_nat (List.length b).
Proof.
  unfold int_from_bytes_big.
  pose proof (int_from_bytes_little_range (rev b)) as H.
  now rewrite length_rev in H.
Qed.

(** Packing then reading back, and the converse. *)
Lemma int_from_to_bytes_little (n : nat) (z : Z) :
  int_from_bytes_little (int_to_bytes_little n z) = z mod 256 ^ Z.of_nat n.
Proof.
  revert z. induction n as [|n IH]; intros z.
  - simpl. now rewrite Z.mod_1_r.
  - cbn [int_to_bytes_little int_from_bytes_little].
    rewrite IH, byte_to_of_Z, Nat2Z.inj_succ, Z.pow_succ_r by lia.
    rewrite (Z.rem_mul_r z 256 (256 ^ Z.of_nat n)) by lia.
    reflexivity.
Qed.

Lemma int_to_from_bytes_little (b : bytes) :
  int_to_bytes_little (List.length b) (int_from_bytes_little b) = b.
Proof.
  induction b as [|x r IH]; [reflexivity|].
  cbn [List.length int_to_bytes_little int_from_bytes_little].
  pose proof (byte_to_Z_range x) as Hx.
  assert (Hm : (byte_to_Z x + 256 * int_from_bytes_little r) mod 256 = byte_to_Z x).
  { rewrite (Z.mul_comm 256), Z.mod_add by lia. apply Z.mod_small. lia. }
  assert (Hd : (byte_to_Z x + 256 * int_from_bytes_little r) / 256
               = int_from_bytes_little r).
  { rewrite (Z.mul_comm 256), Z.div_add by lia.
    rewrite (Z.div_small (byte_to_Z x)) by lia. lia. }
  rewrite Hd, IH. f_equal.
  unfold byte_of_Z. rewrite Hm. fold (byte_of_Z (byte_to_Z x)).
  rewrite <- (Z.mod_small (byte_to_Z x) 256) at 1 by lia.
  apply byte_of_to_Z.
Qed.

Lemma pack_le_ok (n : nat) (i : Z) :
  0 <= i < 256 ^ Z.of_nat n ->
  Struct.pack_le n i = Ok (int_to_bytes_little n i).
Proof.
  intros H. unfold Struct.pack_le.
  destruct (Z.leb_spec 0 i); [|lia].
  destruct (Z.ltb_spec i (256 ^ Z.of_nat n)); [reflexivity|lia].
Qed.

Lemma pack_u32_ok (i : Z) : u32 i -> pack_u32 i = Ok (int_to_bytes_little 4 i).
Proof.
  intros H. apply pack_le_ok. unfold u32 in H. change (256 ^ Z.of_nat 4) with (2 ^ 32). lia.
Qed.

(** ** SHA-256 digests are 32 bytes, chaining values are 32-bit *)

Lemma digest_of_length (s : SHA256.state) : List.length (SHA256.digest_of s) = 32%nat.
Proof.
  unfold SHA256.digest_of, SHA256.words. cbn [flat_map].
  repeat rewrite length_app. repeat rewrite length_rev.
  repeat rewrite int_to_bytes_little_length. reflexivity.
Qed.

Lemma sha256_length (m : bytes) : List.length (SHA256.sha256 m) = 32%nat.
Proof. apply digest_of_length. Qed.

Lemma dhash_length (s : bytes) : List.length (dhash s) = 32%nat.
Proof. apply sha256_length. Qed.

Lemma add32_u32 (a b : Z) : u32 (SHA256.add32 a b).
Proof. unfold u32, SHA256.add32. apply Z.mod_pos_bound. lia. Qed.

Lemma compress_u32 (s : SHA256.state) (block : bytes) :
  state_u32 (SHA256.compress s block).
Proof.
  unfold state_u32, SHA256.compress, SHA256.words. cbn [SHA256.sa SHA256.sb SHA256.sc
    SHA256.sd SHA256.se SHA256.sf SHA256.sg SHA256.sh].
  repeat constructor; apply add32_u32.
Qed.

Lemma absorb_u32 (n : nat) (s : SHA256.state) (b : bytes) :
  state_u32 s -> state_u32 (SHA256.absorb n s b).
Proof.
  revert s b. induction n as [|n IH]; intros s b Hs; cbn [SHA256.absorb]; [exact Hs|].
  destruct (Nat.leb 64 (List.length b)); [|exact Hs].
  apply IH, compress_u32.
Qed.

Lemma IV_u32 : state_u32 SHA256.IV.
Proof. repeat constructor; unfold u32; cbn; lia. Qed.

Lemma sha256_midstate_u32 (data : bytes) : Forall u32 (sha256_midstate data).
Proof. apply absorb_u32, IV_u32. Qed.

Lemma sha256_midstate_length (data : bytes) : List.length (sha256_midstate data) = 8%nat.
Proof. reflexivity. Qed.

Lemma pack_be32_all_ok (ws : list Z) :
  Forall u32 ws ->
  Struct.pack_be32_all ws = Ok (flat_map (fun w => rev (int_to_bytes_little 4 w)) ws).
Proof.
  induction 1 as [|w r Hw _ IH]; [reflexivity|].
  cbn [Struct.pack_be32_all flat_map]. unfold Struct.pack_be32.
  fold (pack_u32 w). rewrite (pack_u32_ok Hw). cbn [obind]. rewrite IH. reflexivity.
Qed.

(** The midstate always packs: [_compute_midstate] cannot fail there. *)
Lemma pack_midstate_ok (data : bytes) :
  Struct.pack_be_8I (sha256_midstate data)
  = Ok (flat_map (fun w => rev (int_to_bytes_little 4 w)) (sha256_midstate data)).
Proof.
  unfold Struct.pack_be_8I. rewrite sha256_midstate_length. cbn [Nat.eqb].
  apply pack_be32_all_ok, sha256_midstate_u32.
Qed.

(** The hash function is never unfolded by the proofs below; the
    evaluations at concrete inputs go through [vm_compute]. *)
Opaque SHA256.sha256 SHA256.compress SHA256.absorb dhash.

(** ** utils.py: compact targets and the block reward *)

Lemma shiftl_1_bytes (k : Z) : 0 <= k -> Z.shiftl 1 (8 * k) = 256 ^ k.
Proof.
  intros Hk. rewrite Z.shiftl_1_l, Z.pow_mul_r by lia. reflexivity.
Qed.

(** What [decode_compact_target] does on any int: the shift count
    [8 * (shift - 3)] is negative exactly when [bits >> 24 < 3], and
    Python then raises [ValueError] ("negative shift count"). *)
Lemma decode_compact_target_spec (bits : Z) :
  decode_compact_target bits =
  if Z.shiftr bits 24 <? 3 then Raise ValueError
  else Ok (Z.land bits 0xffffff * 256 ^ (Z.shiftr bits 24 - 3)).
Proof.
  unfold decode_compact_target, lshift_int.
  destruct (Z.ltb_spec (Z.shiftr bits 24) 3) as [Hlt|Hge].
  - destruct (Z.ltb_spec (8 * (Z.shiftr bits 24 - 3)) 0); [reflexivity|lia].
  - destruct (Z.ltb_spec (8 * (Z.shiftr bits 24 - 3)) 0); [lia|].
    cbn [obind]. rewrite shiftl_1_bytes by lia. reflexivity.
Qed.

Lemma decode_compact_target_nonneg (bits t : Z) :
  0 <= bits -> decode_compact_target bits = Ok t -> 0 <= t.
Proof.
  intros Hb. rewrite decode_compact_target_spec.
  destruct (Z.shiftr bits 24 <? 3) eqn:E; [discriminate|].
  intros Ht. apply Z.ltb_ge in E.
  replace t with (Z.land bits 0xffffff * 256 ^ (Z.shiftr bits 24 - 3)) by congruence.
  apply Z.mul_nonneg_nonneg.
  - apply Z.land_nonneg. left. exact Hb.
  - apply Z.pow_nonneg. lia.
Qed.

(** The reward over the first two eras (heights below 420000) is the
    halving schedule. *)
Lemma compute_reward_first_two_eras (height : Z) :
  0 <= height < 420000 ->
  exists v, compute_reward height = Ok v
    /\ eq_Q v (inject_Z 5000000000 / inject_Z (2 ^ (height / 210000)))%Q = true.
Proof.
  intros H.
  assert (E : height / 210000 = 0 \/ height / 210000 = 1).
  { assert (0 <= height / 210000) by (apply Z.div_pos; lia).
    assert (height / 210000 < 2) by (apply Z.div_lt_upper_bound; lia).
    lia. }
  unfold compute_reward, floordiv_int. cbn [Z.eqb obind].
  destruct E as [-> | ->]; eexists; split; try reflexivity; vm_compute; reflexivity.
Qed.

(** The three heights of the specification's reward schedule. *)
Lemma compute_reward_examples :
  (exists v, compute_reward 0 = Ok v /\ eq_Q v (inject_Z 5000000000) = true) /\
  (exists v, compute_reward 209999 = Ok v /\ eq_Q v (inject_Z 5000000000) = true) /\
  (exists v, compute_reward 210000 = Ok v /\ eq_Q v (inject_Z 2500000000) = true).
Proof.
  repeat split; eexists; split; vm_compute; reflexivity.
Qed.

(** The encoder reaches [target >> (8 * (shift - 3))] with a float
    shift count. *)
Lemma encode_compact_target_raises (target : Z) :
  encode_compact_target target = Raise TypeError
  \/ encode_compact_target target = Raise OverflowError.
Proof.
  unfold encode_compact_target.
  set (n := Z.of_nat (String.length (format_hex target)) + 1).
  unfold truediv. change (2 =? 0) with false. cbv iota.
  destruct (SFdiv prec emax (exact_of_int n) (exact_of_int 2)) eqn:E;
    try (right; reflexivity); left; reflexivity.
Qed.

(** ** The merkle tree loop *)

Lemma list_ind2 (A : Type) (P : list A -> Prop) :
  P [] -> (forall x, P [x]) -> (forall x y r, P r -> P (x :: y :: r)) ->
  forall l, P l.
Proof.
  intros H0 H1 H2.
  assert (H : forall l, P l /\ forall x, P (x :: l)).
  { induction l as [|y r [IHr IHxr]]; split; auto. }
  intros l. apply H.
Qed.

Lemma last_node_cons (x y : MerkleNode) (r : list MerkleNode) :
  last_node (x :: y :: r) = last_node (y :: r).
Proof. reflexivity. Qed.

Lemma append_last_cons (x y : MerkleNode) (r : list MerkleNode) :
  append_last (x :: y :: r) = x :: append_last (y :: r).
Proof.
  unfold append_last. rewrite last_node_cons.
  destruct (last_node (y :: r)); reflexivity.
Qed.

(** A pass over a level that starts with two nodes: the first parent,
    and parents that do not depend on the first node. *)
Lemma next_level_cons (x y : MerkleNode) (r : list MerkleNode) :
  next_level (x :: y :: r)
  = mkMerkleNode (dhash (Node.hash x ++ Node.hash y)) (Some x) (Some y)
      :: next_level r.
Proof.
  unfold next_level. cbn [List.length]. rewrite Nat.odd_succ_succ.
  destruct (Nat.odd (List.length r)) eqn:E; [|reflexivity].
  destruct r as [|z r']; [discriminate|].
  rewrite append_last_cons.
  destruct r' as [|z' r''].
  - reflexivity.
  - rewrite !append_last_cons. reflexivity.
Qed.

Lemma next_level_single (x : MerkleNode) :
  next_level [x] = [mkMerkleNode (dhash (Node.hash x ++ Node.hash x)) (Some x) (Some x)].
Proof. reflexivity. Qed.

Lemma next_level_length (l : list MerkleNode) :
  List.length (next_level l) = Nat.div2 (S (List.length l)).
Proof.
  induction l as [| x | x y r IH] using list_ind2; try reflexivity.
  rewrite next_level_cons. cbn [List.length Nat.div2]. now rewrite IH.
Qed.

(** The hashes of the next level are those of the specification. *)
Lemma next_level_hashes (l : list MerkleNode) :
  map Node.hash (next_level l) = spec_pairs (map Node.hash l).
Proof.
  induction l as [| x | x y r IH] using list_ind2; try reflexivity.
  rewrite next_level_cons. cbn [map spec_pairs Node.hash]. now rewrite IH.
Qed.

Lemma next_level_consistent (l : list MerkleNode) :
  Forall consistent l -> Forall consistent (next_level l).
Proof.
  induction l as [| x | x y r IH] using list_ind2; intros H.
  - constructor.
  - rewrite next_level_single. inversion H; subst. repeat constructor; assumption.
  - rewrite next_level_cons. inversion H as [|? ? Hx H']; subst.
    inversion H' as [|? ? Hy Hr]; subst.
    constructor; [|apply IH; exact Hr].
    cbn. repeat split; assumption.
Qed.

(** Without leaves the loop never returns. *)
Lemma merkle_loop_empty (fuel : nat) : merkle_loop fuel [] = None.
Proof.
  induction fuel as [|fuel IH]; [reflexivity|]. cbn [merkle_loop]. exact IH.
Qed.

Lemma div2_le (n : nat) : (1 <= n -> 1 <= Nat.div2 (S n) <= n)%nat.
Proof.
  intros H. pose proof (Nat.div2_odd (S n)) as E.
  destruct (Nat.odd (S n)); cbn [Nat.b2n] in E; lia.
Qed.

Lemma div2_lt (n : nat) : (2 <= n -> Nat.div2 (S n) < n)%nat.
Proof.
  intros H. pose proof (Nat.div2_odd (S n)) as E.
  destruct (Nat.odd (S n)); cbn [Nat.b2n] in E; lia.
Qed.

(** With at least one leaf, as many passes as there are leaves are
    enough for the loop to return. *)
Lemma merkle_loop_enough_fuel (fuel : nat) (l : list MerkleNode) :
  (1 <= List.length l <= fuel)%nat -> exists root, merkle_loop fuel l = Some root.
Proof.
  revert l. induction fuel as [|fuel IH]; intros l H; [lia|].
  cbn [merkle_loop].
  destruct l as [|x [|y r]].
  - cbn in H. lia.
  - eauto.
  - apply IH. rewrite next_level_length.
    pose proof (@div2_lt (List.length (x :: y :: r))) as Hlt.
    pose proof (@div2_le (List.length (x :: y :: r))) as Hle.
    cbn [List.length] in *. lia.
Qed.

(** More fuel does not change the result. *)
Lemma merkle_loop_more_fuel (fuel fuel' : nat) (l : list MerkleNode) (root : MerkleNode) :
  merkle_loop fuel l = Some root -> (fuel <= fuel')%nat ->
  merkle_loop fuel' l = Some root.
Proof.
  revert fuel' l. induction fuel as [|fuel IH]; intros fuel' l H Hle; [discriminate|].
  destruct fuel' as [|fuel']; [lia|].
  cbn [merkle_loop] in *.
  destruct l as [|x [|y r]]; try exact H; apply IH; try exact H; lia.
Qed.

Lemma merkle_loop_consistent (fuel : nat) (l : list MerkleNode) (root : MerkleNode) :
  Forall consistent l -> merkle_loop fuel l = Some root -> consistent root.
Proof.
  revert l. induction fuel as [|fuel IH]; intros l Hl H; [discriminate|].
  cbn [merkle_loop] in H.
  destruct l as [|x [|y r]].
  - now rewrite merkle_loop_empty in H.
  - injection H as <-. now inversion Hl.
  - eapply IH; [|exact H]. now apply next_level_consistent.
Qed.

Lemma spec_root_within_more (n n' : nat) (hs : list bytes) (h : bytes) :
  spec_root_within n hs = Some h -> (n <= n')%nat -> spec_root_within n' hs = Some h.
Proof.
  revert n' hs. induction n as [|n IH]; intros n' hs H Hle.
  - destruct hs as [|x [|y r]]; try discriminate.
    destruct n'; exact H.
  - destruct n' as [|n']; [lia|].
    destruct hs as [|x [|y r]]; cbn [spec_root_within] in *;
      try exact H; apply IH; try exact H; lia.
Qed.

(** The loop computes the root of the specification's procedure. *)
Lemma merkle_loop_spec_root_within (fuel : nat) (l : list MerkleNode) (root : MerkleNode) :
  merkle_loop fuel l = Some root ->
  spec_root_within fuel (map Node.hash l) = Some (Node.hash root).
Proof.
  revert l. induction fuel as [|fuel IH]; intros l H; [discriminate|].
  cbn [merkle_loop] in H.
  destruct l as [|x [|y r]].
  - now rewrite merkle_loop_empty in H.
  - injection H as <-. reflexivity.
  - apply IH in H. rewrite next_level_hashes in H. exact H.
Qed.

Lemma map_leaf_hash (l : list Transaction) :
  map Node.hash (map leaf l) = map Txn.hash l.
Proof. rewrite map_map. reflexivity. Qed.

Lemma leaves_consistent (l : list Transaction) : Forall consistent (map leaf l).
Proof. induction l; constructor; [exact I|assumption]. Qed.

(** ** Block: the full merkle rebuild *)

Ltac run_monad :=
  unfold bind, ret, raise, get, put, modify, lift, diverge.

Lemma compute_merkle_tree_built (b : Block.t) (t0 : Transaction) (rest : list Transaction) :
  Block.txns b = Some (t0 :: rest) ->
  exists root,
    merkle_loop (List.length (t0 :: rest)) (map leaf (t0 :: rest)) = Some root
    /\ Block.compute_merkle_tree b = (Ok tt, Block.set_merkle_tree (Some root) b).
Proof.
  intros Htx.
  destruct (@merkle_loop_enough_fuel (List.length (t0 :: rest)) (map leaf (t0 :: rest)))
    as [root Hroot].
  { rewrite length_map. cbn [List.length]. lia. }
  exists root. split; [exact Hroot|].
  unfold Block.compute_merkle_tree, Block.getattr_txns. run_monad.
  rewrite Htx, length_map, Hroot. reflexivity.
Qed.

(** Without transactions [compute_merkle_tree] does not return. *)
Lemma compute_merkle_tree_no_txns (b : Block.t) :
  Block.txns b = Some [] -> Block.compute_merkle_tree b = (Diverges, b).
Proof.
  intros Htx. unfold Block.compute_merkle_tree, Block.getattr_txns. run_monad.
  rewrite Htx. reflexivity.
Qed.

(** An object that lacks [txns] cannot build its tree. *)
Lemma compute_merkle_tree_no_attr (b : Block.t) :
  Block.txns b = None -> Block.compute_merkle_tree b = (Raise AttributeError, b).
Proof.
  intros Htx. unfold Block.compute_merkle_tree, Block.getattr_txns. run_monad.
  rewrite Htx. reflexivity.
Qed.

Lemma invalidate_built (b : Block.t) (t0 : Transaction) (rest : list Transaction) :
  Block.txns b = Some (t0 :: rest) ->
  exists root,
    merkle_loop (List.length (t0 :: rest)) (map leaf (t0 :: rest)) = Some root
    /\ Block.invalidate b
       = (Ok tt,
          Block.set_block_header
            (BlockHeader.set_merkle_root_hash (Node.hash root) (Block.block_header b))
            (Block.set_merkle_tree (Some root) b)).
Proof.
  intros Htx. destruct (compute_merkle_tree_built b Htx) as (root & Hloop & Hc).
  exists root. split; [exact Hloop|].
  unfold Block.invalidate. run_monad. rewrite Hc. reflexivity.
Qed.

(** *** The stored tree, from the root down *)

Lemma join_over_S (d : nat) (l : list MerkleNode) :
  join_over (S d) l
  = if (List.length l <=? 2 ^ d)%nat
    then spec_parent (join_over d l) (join_over d l)
    else spec_parent (join_over d (firstn (2 ^ d) l)) (join_over d (skipn (2 ^ d) l)).
Proof. reflexivity. Qed.

Lemma pair_level_length (n : nat) (a : list MerkleNode) :
  List.length a = (2 * n)%nat -> List.length (pair_level a) = n.
Proof.
  revert a. induction n as [|n IH]; intros a Ha.
  - destruct a; [reflexivity|discriminate].
  - destruct a as [|x [|y a']]; cbn [List.length] in Ha; try lia.
    cbn [pair_level List.length]. f_equal. apply IH. lia.
Qed.

(** A pass pairs an even prefix of a level within itself. *)
Lemma next_level_even_app (n : nat) (a c : list MerkleNode) :
  List.length a = (2 * n)%nat -> next_level (a ++ c) = pair_level a ++ next_level c.
Proof.
  revert a. induction n as [|n IH]; intros a Ha.
  - destruct a; [reflexivity|discriminate].
  - destruct a as [|x [|y a']]; cbn [List.length] in Ha; try lia.
    cbn [app]. rewrite next_level_cons. cbn [pair_level app].
    rewrite IH by lia. reflexivity.
Qed.

Lemma next_level_even (n : nat) (a : list MerkleNode) :
  List.length a = (2 * n)%nat -> next_level a = pair_level a.
Proof.
  intros Ha. rewrite <- (app_nil_r a) at 1.
  rewrite (@next_level_even_app n a [] Ha). apply app_nil_r.
Qed.

Lemma div2_S_bounds (n : nat) :
  (2 * Nat.div2 (S n) = n \/ 2 * Nat.div2 (S n) = S n)%nat.
Proof.
  pose proof (Nat.div2_odd (S n)) as E.
  destruct (Nat.odd (S n)); cbn [Nat.b2n] in E; lia.
Qed.

Lemma firstn_prefix (A : Type) (n : nat) (l r : list A) :
  List.length l = n -> firstn n (l ++ r) = l.
Proof.
  intros <-. induction l as [|x l IH]; [reflexivity|].
  cbn [List.length app firstn]. now rewrite IH.
Qed.

Lemma skipn_prefix (A : Type) (n : nat) (l r : list A) :
  List.length l = n -> skipn n (l ++ r) = r.
Proof.
  intros <-. induction l as [|x l IH]; [reflexivity|].
  cbn [List.length app skipn]. exact IH.
Qed.

(** One pass below a tree of depth [d] is a tree of depth [d + 1]. *)
Lemma join_over_next_level (d : nat) (l : list MerkleNode) :
  (1 <= List.length l <= 2 ^ S d)%nat ->
  join_over d (next_level l) = join_over (S d) l.
Proof.
  revert l. induction d as [|d IH]; intros l Hl.
  - destruct l as [|x [|y [|z r]]]; cbn in Hl; try lia; reflexivity.
  - rewrite (join_over_S d (next_level l)), (join_over_S (S d) l).
    rewrite next_level_length.
    pose proof (div2_S_bounds (List.length l)) as Hd.
    assert (Hp : (2 ^ S d = 2 * 2 ^ d)%nat) by apply Nat.pow_succ_r'.
    assert (Hp' : (2 ^ S (S d) = 2 * 2 ^ S d)%nat) by apply Nat.pow_succ_r'.
    destruct (Nat.leb_spec (List.length l) (2 ^ S d)) as [Hle|Hgt].
    + destruct (Nat.leb_spec (Nat.div2 (S (List.length l))) (2 ^ d)) as [_|Hc]; [|lia].
      rewrite (IH l) by lia. reflexivity.
    + destruct (Nat.leb_spec (Nat.div2 (S (List.length l))) (2 ^ d)) as [Hc|_]; [lia|].
      pose proof (firstn_skipn (2 ^ S d) l) as Hs.
      assert (Ha : List.length (firstn (2 ^ S d) l) = (2 * 2 ^ d)%nat)
        by (rewrite firstn_length_le; lia).
      assert (Hk : (1 <= List.length (skipn (2 ^ S d) l) <= 2 ^ S d)%nat)
        by (rewrite length_skipn; lia).
      rewrite <- Hs at 1 2.
      rewrite (@next_level_even_app (2 ^ d) _ _ Ha).
      rewrite (@firstn_prefix _ _ _ (next_level (skipn (2 ^ S d) l)) (@pair_level_length _ _ Ha)).
      rewrite (@skipn_prefix _ _ _ (next_level (skipn (2 ^ S d) l)) (@pair_level_length _ _ Ha)).
      rewrite <- (@next_level_even _ _ Ha).
      rewrite (IH (firstn (2 ^ S d) l)) by lia.
      rewrite (IH (skipn (2 ^ S d) l)) by lia.
      reflexivity.
Qed.

Lemma log2_up_half (n : nat) :
  (2 <= n)%nat -> Nat.log2_up n = S (Nat.log2_up (Nat.div2 (S n))).
Proof.
  intros Hn. pose proof (div2_S_bounds n) as Hd.
  destruct (Nat.eq_dec (Nat.div2 (S n)) 1) as [E|E].
  - rewrite E. assert (n = 2%nat) by lia. subst n. reflexivity.
  - assert (Hm : (1 < Nat.div2 (S n))%nat) by lia.
    pose proof (@Nat.log2_up_spec _ Hm) as Hs.
    pose proof (@Nat.log2_up_pos _ Hm) as Hpos.
    destruct (Nat.log2_up (Nat.div2 (S n))) as [|k]; [lia|].
    cbn [Nat.pred] in Hs.
    assert (Hp : (2 ^ S k = 2 * 2 ^ k)%nat) by apply Nat.pow_succ_r'.
    assert (Hp' : (2 ^ S (S k) = 2 * 2 ^ S k)%nat) by apply Nat.pow_succ_r'.
    apply Nat.log2_up_unique; [lia|]. cbn [Nat.pred]. lia.
Qed.

(** What the loop returns is the tree of least depth over its
    level. *)
Lemma merkle_loop_join_over (fuel : nat) (l : list MerkleNode) (root : MerkleNode) :
  merkle_loop fuel l = Some root ->
  root = join_over (Nat.log2_up (List.length l)) l.
Proof.
  revert l. induction fuel as [|fuel IH]; intros l H; [discriminate|].
  cbn [merkle_loop] in H.
  destruct l as [|x [|y r]].
  - now rewrite merkle_loop_empty in H.
  - injection H as <-. reflexivity.
  - apply IH in H. rewrite next_level_length in H.
    assert (Hn : (2 <= List.length (x :: y :: r))%nat) by (cbn [List.length]; lia).
    rewrite (@log2_up_half _ Hn).
    rewrite join_over_next_level in H; [exact H|].
    rewrite <- (@log2_up_half _ Hn).
    assert (H1 : (1 < List.length (x :: y :: r))%nat) by lia.
    pose proof (@Nat.log2_up_spec _ H1). lia.
Qed.

Lemma tree_over_leaves (l : list Transaction) :
  join_over (Nat.log2_up (List.length (map leaf l))) (map leaf l)
  = tree_over (map Txn.hash l).
Proof. unfold tree_over. rewrite map_map, !length_map. reflexivity. Qed.

(** C6. [Block.compute_merkle_tree] on a block with at least one
    transaction returns and stores, touching nothing else, the tree
    the specification's bottom-up procedure builds over the ordered
    transaction hashes: childless leaves carrying the hashes, an odd
    level's last node duplicated, consecutive nodes paired under a
    parent whose hash is [dhash(left.hash + right.hash)]
    ([tree_over]). Every inner node of it carries the double hash of
    its children's hashes and its root hash is the root of the
    procedure run on the hashes alone; for one transaction the tree is
    that transaction's childless leaf, its hash unchanged; for three
    transactions it is the tree of the pairs [(h0, h1)] and
    [(h2, h2)], with root
    [dhash(dhash(h0 + h1) + dhash(h2 + h2))]. *)
Theorem C6_compute_merkle_tree (b : Block.t) (t0 : Transaction) (rest : list Transaction) :
  Block.txns b = Some (t0 :: rest) ->
  let root := tree_over (map Txn.hash (t0 :: rest)) in
  Block.compute_merkle_tree b
  = (Ok tt,
     Block.mk (Block.height b) (Block.block_header b) (Block.target b)
              (Block.txns b) (Block.transactions b) (Some root))
  /\ consistent root
  /\ spec_root (map Txn.hash (t0 :: rest)) = Some (Node.hash root)
  /\ (rest = [] -> root = mkMerkleNode (Txn.hash t0) None None)
  /\ (forall t1 t2, rest = [t1; t2] ->
      root
      = mkMerkleNode
          (dhash (dhash (Txn.hash t0 ++ Txn.hash t1) ++ dhash (Txn.hash t2 ++ Txn.hash t2)))
          (Some (mkMerkleNode (dhash (Txn.hash t0 ++ Txn.hash t1))
                   (Some (mkMerkleNode (Txn.hash t0) None None))
                   (Some (mkMerkleNode (Txn.hash t1) None None))))
          (Some (mkMerkleNode (dhash (Txn.hash t2 ++ Txn.hash t2))
                   (Some (mkMerkleNode (Txn.hash t2) None None))
                   (Some (mkMerkleNode (Txn.hash t2) None None))))).
Proof.
  intros Htx root.
  destruct (compute_merkle_tree_built b Htx) as (root' & Hloop & Hc).
  assert (Hr : root' = root).
  { rewrite (@merkle_loop_join_over _ _ _ Hloop). apply tree_over_leaves. }
  subst root'. split; [exact Hc|]. split; [|split; [|split]].
  - eapply merkle_loop_consistent; [|exact Hloop]. apply leaves_consistent.
  - unfold spec_root. rewrite length_map, <- map_leaf_hash.
    apply merkle_loop_spec_root_within. exact Hloop.
  - intros ->. reflexivity.
  - intros t1 t2 ->. reflexivity.
Qed.

Lemma C6_compute_merkle_tree_witness :
  Block.compute_merkle_tree
    (Block.mk None (BlockHeader.mk 1 [] [] 0 0 0) None
              (Some [ex_coinbase; ex_t1; ex_t2]) None None)
  = (Ok tt,
     Block.mk None (BlockHeader.mk 1 [] [] 0 0 0) None
              (Some [ex_coinbase; ex_t1; ex_t2]) None
              (Some (mkMerkleNode
                 (dhash (dhash (Txn.hash ex_coinbase ++ Txn.hash ex_t1)
                         ++ dhash (Txn.hash ex_t2 ++ Txn.hash ex_t2)))
                 (Some (mkMerkleNode (dhash (Txn.hash ex_coinbase ++ Txn.hash ex_t1))
                          (Some (mkMerkleNode (Txn.hash ex_coinbase) None None))
                          (Some (mkMerkleNode (Txn.hash ex_t1) None None))))
                 (Some (mkMerkleNode (dhash (Txn.hash ex_t2 ++ Txn.hash ex_t2))
                          (Some (mkMerkleNode (Txn.hash ex_t2) None None))
                          (Some (mkMerkleNode (Txn.hash ex_t2) None None))))))).
Proof.
  destruct (@C6_compute_merkle_tree
              (Block.mk None (BlockHeader.mk 1 [] [] 0 0 0) None
                        (Some [ex_coinbase; ex_t1; ex_t2]) None None)
              ex_coinbase [ex_t1; ex_t2] eq_refl)
    as (Hc & _ & _ & _ & H3).
  rewrite Hc, (H3 ex_t1 ex_t2 eq_refl). reflexivity.
Defined.

(** ** Block: the coinbase setter and the incremental update *)

(** On a tree built by [compute_merkle_tree], [invalidate_coinbase]
    walks down the left edge to the coinbase leaf and raises there:
    nothing has been written. *)
Lemma invalidate_coinbase_at_raises :
  forall (n : MerkleNode) (restart : M Block.t unit) (b : Block.t),
    consistent n ->
    Block.invalidate_coinbase_at restart n b = (Raise AttributeError, b).
Proof.
  fix IH 1. intros [h [l|] [r|]] restart b Hc; cbn [consistent] in Hc.
  - cbn [Block.invalidate_coinbase_at]. unfold bind.
    destruct Hc as (_ & Hl & _). rewrite (IH l restart b Hl). reflexivity.
  - contradiction.
  - contradiction.
  - reflexivity.
Qed.

Lemma invalidate_coinbase_raises (b : Block.t) (root : MerkleNode) :
  Block.merkle_tree b = Some root -> consistent root ->
  Block.invalidate_coinbase None b = (Raise AttributeError, b).
Proof.
  intros Ht Hc. unfold Block.invalidate_coinbase, bind, get. rewrite Ht.
  apply invalidate_coinbase_at_raises. exact Hc.
Qed.

(** Even on a tree of any other shape the walk never returns
    normally. *)
Lemma invalidate_coinbase_at_never_ok :
  forall (n : MerkleNode) (restart : M Block.t unit) (b : Block.t),
    (forall b0, is_ok (fst (restart b0)) = false) ->
    is_ok (fst (Block.invalidate_coinbase_at restart n b)) = false.
Proof.
  fix IH 1. intros [h [l|] [r|]] restart b Hr; cbn [Block.invalidate_coinbase_at]; unfold bind.
  - specialize (IH l restart b Hr).
    destruct (Block.invalidate_coinbase_at restart l b) as [[u|e|] b']; cbn in *;
      [discriminate|reflexivity|reflexivity].
  - specialize (IH l restart b Hr).
    destruct (Block.invalidate_coinbase_at restart l b) as [[u|e|] b']; cbn in *;
      [discriminate|reflexivity|reflexivity].
  - specialize (Hr b). destruct (restart b) as [[u|e|] b']; cbn in *;
      [discriminate|reflexivity|reflexivity].
  - reflexivity.
Qed.

(** What [Block.__init__] establishes. *)
Lemma Block_init_inv (height version : Z) (prev : bytes) (time bits nonce : Z)
      (txns : list Transaction) (b : Block.t) :
  Block.__init__ height version prev time bits nonce txns = Ok b ->
  exists root tg,
    merkle_loop (List.length txns) (map leaf txns) = Some root
    /\ decode_compact_target bits = Ok tg
    /\ b = Block.mk (Some height)
                    (BlockHeader.mk version prev (Node.hash root) time bits nonce)
                    (Some tg) (Some txns) None (Some root).
Proof.
  unfold Block.__init__, BlockBase.__init__.
  destruct (decode_compact_target bits) as [tg|e|]; cbn [obind]; try discriminate.
  destruct txns as [|t0 rest].
  - unfold construct, Block.invalidate. run_monad.
    rewrite compute_merkle_tree_no_txns by reflexivity. discriminate.
  - match goal with |- construct _ ?s = _ -> _ =>
      destruct (@invalidate_built s t0 rest eq_refl) as (root & Hloop & Hinv)
    end.
    unfold construct. rewrite Hinv. intros H.
    exists root, tg. split; [exact Hloop|]. split; [reflexivity|].
    injection H as <-. reflexivity.
Qed.

Lemma Block_init_consistent (height version : Z) (prev : bytes) (time bits nonce : Z)
      (txns : list Transaction) (b : Block.t) :
  Block.__init__ height version prev time bits nonce txns = Ok b ->
  exists root, Block.merkle_tree b = Some root /\ consistent root
    /\ BlockHeader.merkle_root_hash (Block.block_header b) = Node.hash root
    /\ Block.txns b = Some txns.
Proof.
  intros H. destruct (Block_init_inv _ _ _ _ _ _ _ H) as (root & tg & Hloop & _ & ->).
  exists root. repeat split.
  eapply merkle_loop_consistent; [|exact Hloop]. apply leaves_consistent.
Qed.

(** The setter on a valid coinbase: position 0 is replaced, then
    [invalidate_coinbase] raises; tree and header keep the old root. *)
Lemma set_coinbase_transaction_valid (b : Block.t) (cb_txn old : Transaction)
      (i : Input) (rest : list Transaction) (root : MerkleNode) :
  Txn.inputs cb_txn = [i] -> Txn.is_CoinbaseInput i = true ->
  Block.txns b = Some (old :: rest) ->
  Block.merkle_tree b = Some root -> consistent root ->
  Block.set_coinbase_transaction cb_txn b
  = (Raise AttributeError, Block.set_txns (cb_txn :: rest) b).
Proof.
  intros Hi Hk Htx Ht Hc. unfold Block.set_coinbase_transaction, Txn.num_inputs.
  rewrite Hi. cbn [List.length Z.of_nat Pos.of_succ_nat Z.eqb Pos.eqb negb]. rewrite Hk. cbn [negb].
  unfold bind at 1. unfold bind at 1. unfold Block.getattr_txns. rewrite Htx.
  unfold modify.
  rewrite (@invalidate_coinbase_raises _ root); [reflexivity|exact Ht|exact Hc].
Qed.

(** The setter on an invalid coinbase raises before any write. *)
Lemma set_coinbase_transaction_count (b : Block.t) (cb_txn : Transaction) :
  Txn.num_inputs cb_txn <> 1 ->
  Block.set_coinbase_transaction cb_txn b = (Raise ValueError, b).
Proof.
  intros H. unfold Block.set_coinbase_transaction.
  destruct (Z.eqb_spec (Txn.num_inputs cb_txn) 1); [contradiction|reflexivity].
Qed.

Lemma set_coinbase_transaction_kind (b : Block.t) (cb_txn : Transaction) (i : Input) :
  Txn.inputs cb_txn = [i] -> Txn.is_CoinbaseInput i = false ->
  Block.set_coinbase_transaction cb_txn b = (Raise TypeError, b).
Proof.
  intros Hi Hk. unfold Block.set_coinbase_transaction, Txn.num_inputs.
  rewrite Hi. cbn [List.length Z.of_nat Pos.of_succ_nat Z.eqb Pos.eqb negb]. rewrite Hk. reflexivity.
Qed.

(** The incremental update as the specification describes it agrees
    with a full rebuild: replacing the first node of a level by its
    update replaces the root by its update. *)
Lemma spec_update_left_edge_loop (new_hash : bytes) (fuel : nat) :
  forall (n : MerkleNode) (rest : list MerkleNode) (root : MerkleNode),
    merkle_loop fuel (n :: rest) = Some root ->
    merkle_loop fuel (spec_update_left_edge new_hash n :: rest)
    = Some (spec_update_left_edge new_hash root).
Proof.
  induction fuel as [|fuel IH]; intros n rest root H; [discriminate|].
  cbn [merkle_loop] in *. destruct rest as [|y r].
  - injection H as <-. reflexivity.
  - rewrite next_level_cons in *. apply IH in H.
    cbn [spec_update_left_edge] in H. exact H.
Qed.

(** Hence, for the same other transactions, the specification's
    incremental update of the tree of [cb :: tail] to the coinbase
    [cb'] is the tree a full rebuild makes of [cb' :: tail]. *)
Lemma spec_update_left_edge_rebuild (cb cb' : Transaction) (tail : list Transaction)
      (root : MerkleNode) :
  merkle_loop (List.length (cb :: tail)) (map leaf (cb :: tail)) = Some root ->
  merkle_loop (List.length (cb' :: tail)) (map leaf (cb' :: tail))
  = Some (spec_update_left_edge (Txn.hash cb') root).
Proof.
  intros H. cbn [map List.length] in *.
  apply (spec_update_left_edge_loop (Txn.hash cb')) in H. exact H.
Qed.

(** With the real setter the header keeps the root of the old
    coinbase, whatever block [Block.__init__] built. *)
Lemma set_coinbase_transaction_stale (height version : Z) (prev : bytes)
      (time bits nonce : Z) (old cb_txn : Transaction) (i : Input)
      (tail : list Transaction) (b : Block.t) :
  Block.__init__ height version prev time bits nonce (old :: tail) = Ok b ->
  Txn.inputs cb_txn = [i] -> Txn.is_CoinbaseInput i = true ->
  Block.set_coinbase_transaction cb_txn b
  = (Raise AttributeError, Block.set_txns (cb_txn :: tail) b).
Proof.
  intros Hb Hi Hk.
  destruct (Block_init_consistent _ _ _ _ _ _ _ Hb) as (root & Ht & Hc & _ & Htx).
  eapply set_coinbase_transaction_valid; eauto.
Qed.

Lemma ex_block_init_ok : ex_block_init ex_coinbase = Ok ex_block.
Proof. vm_compute. reflexivity. Qed.

Lemma ex_rebuilt_init_ok : ex_block_init ex_coinbase' = Ok ex_rebuilt.
Proof. vm_compute. reflexivity. Qed.

(** C1. A block of three transactions, and a second coinbase: the
    setter replaces position 0 and then [invalidate_coinbase] raises
    [AttributeError] ([set_txns] touches neither the tree nor the
    header); the header's root is still that of the old coinbase and
    differs from the root of a full rebuild with the new coinbase in
    position 0. *)
Theorem C1_incremental_update_raises :
  ex_block_init ex_coinbase = Ok ex_block
  /\ Block.set_coinbase_transaction ex_coinbase' ex_block
     = (Raise AttributeError, Block.set_txns [ex_coinbase'; ex_t1; ex_t2] ex_block)
  /\ ex_block_init ex_coinbase' = Ok ex_rebuilt
  /\ BlockHeader.merkle_root_hash
       (Block.block_header (Block.set_txns [ex_coinbase'; ex_t1; ex_t2] ex_block))
     <> BlockHeader.merkle_root_hash (Block.block_header ex_rebuilt).
Proof.
  split; [exact ex_block_init_ok|]. split.
  { eapply set_coinbase_transaction_stale;
      [exact ex_block_init_ok|reflexivity|reflexivity]. }
  split; [exact ex_rebuilt_init_ok|].
  vm_compute. discriminate.
Qed.

(** C8 as stated fails on the exception class: a transaction with two
    inputs makes the setter raise [ValueError], and no
    [InvalidCoinbase] exists in the code. *)
Lemma C8_invalid_coinbase_counterexample :
  invalid_coinbase ex_two_inputs
  /\ Block.set_coinbase_transaction ex_two_inputs ex_block = (Raise ValueError, ex_block)
  /\ fst (Block.set_coinbase_transaction ex_two_inputs ex_block)
     <> Raise (SpecCondition InvalidCoinbase).
Proof.
  assert (H : Txn.num_inputs ex_two_inputs <> 1) by (cbn; discriminate).
  split; [left; exact H|].
  rewrite (@set_coinbase_transaction_count ex_block _ H).
  split; [reflexivity|]. cbn [fst]. discriminate.
Qed.

(** C8, amended. Assigning a transaction whose input count is not one
    raises [ValueError], and one whose single input is not a
    [CoinbaseInput] raises [TypeError]; in both cases the block is
    left exactly as it was (transactions, merkle tree and header). *)
Theorem C8_invalid_coinbase_unchanged (b : Block.t) (cb_txn : Transaction) :
  invalid_coinbase cb_txn ->
  Block.set_coinbase_transaction cb_txn b
  = (Raise (if Txn.num_inputs cb_txn =? 1 then TypeError else ValueError), b).
Proof.
  intros [Hn | (i & Hi & Hk)].
  - rewrite (@set_coinbase_transaction_count b _ Hn).
    destruct (Z.eqb_spec (Txn.num_inputs cb_txn) 1); [contradiction|reflexivity].
  - rewrite (@set_coinbase_transaction_kind b _ _ Hi Hk).
    unfold Txn.num_inputs. rewrite Hi. reflexivity.
Qed.

Lemma C8_invalid_coinbase_unchanged_witness :
  Block.set_coinbase_transaction ex_spending ex_block = (Raise TypeError, ex_block).
Proof.
  apply (@C8_invalid_coinbase_unchanged ex_block ex_spending).
  right. exists (TransactionInput [x0a] [x0b]). split; reflexivity.
Defined.

(** ** Block: parsing *)

(** [from_blockheader] stores the list as [self.transactions];
    [compute_merkle_tree] reads [self.txns]. *)
Lemma from_blockheader_raises (bh : BlockHeader.t) (txns : list Transaction) :
  Block.from_blockheader bh txns = Raise AttributeError.
Proof.
  unfold Block.from_blockheader, construct, Block.invalidate. run_monad.
  rewrite compute_merkle_tree_no_attr by reflexivity. reflexivity.
Qed.

Lemma from_bytes_raises (parse : bytes -> outcome (Transaction * bytes))
      (b b1 b2 b3 : bytes) (bh : BlockHeader.t) (n : Z) (l : list Transaction) :
  BlockHeader.from_bytes b = Ok (bh, b1) ->
  unpack_compact_int b1 = Ok (Some (n, b2)) ->
  Block.parse_txns parse (Z.to_nat n) b2 = Ok (l, b3) ->
  Block.from_bytes parse b = Raise AttributeError.
Proof.
  intros Hh Hn Hl. unfold Block.from_bytes.
  rewrite Hh. cbn [obind]. rewrite Hn. cbn [obind unpack_pair]. rewrite Hl. cbn [obind].
  rewrite from_blockheader_raises. reflexivity.
Qed.

Lemma from_bytes_never_ok (parse : bytes -> outcome (Transaction * bytes)) (b : bytes) :
  is_ok (Block.from_bytes parse b) = false.
Proof.
  unfold Block.from_bytes.
  destruct (BlockHeader.from_bytes b) as [[bh b1]| |]; cbn [obind is_ok]; try reflexivity.
  destruct (unpack_compact_int b1) as [r| |]; cbn [obind is_ok]; try reflexivity.
  destruct (unpack_pair r) as [[n b2]| |]; cbn [obind is_ok]; try reflexivity.
  destruct (Block.parse_txns parse (Z.to_nat n) b2) as [[l b3]| |];
    cbn [obind is_ok]; [|reflexivity|reflexivity].
  rewrite from_blockheader_raises. reflexivity.
Qed.

(** C2. [Block.from_bytes] returns a block for no input at all; on the
    serialization of the example block (header, count 3 and three
    transactions, each of which parses) it raises [AttributeError]. *)
Theorem C2_from_bytes_never_returns :
  (forall (parse : bytes -> outcome (Transaction * bytes)) (b : bytes),
      is_ok (Block.from_bytes parse b) = false)
  /\ Block.__bytes__ ex_block = Ok ex_block_bytes
  /\ BlockHeader.from_bytes ex_block_bytes
     = Ok (Block.block_header ex_block, skipn 80 ex_block_bytes)
  /\ unpack_compact_int (skipn 80 ex_block_bytes) = Ok (Some (3, skipn 81 ex_block_bytes))
  /\ Block.parse_txns ex_Transaction_from_bytes 3 (skipn 81 ex_block_bytes)
     = Ok (map (fun x => mkTransaction [] (dhash [x]) [x]) (skipn 81 ex_block_bytes), [])
  /\ Block.from_bytes ex_Transaction_from_bytes ex_block_bytes = Raise AttributeError.
Proof.
  split; [exact from_bytes_never_ok|].
  repeat split; vm_compute; reflexivity.
Qed.

(** ** Headers and the proof-of-work check *)

#[global] Instance Block_laws : BlockBaseLaws Block.t.
Proof. split; intros h [? ? ? ? ? ?]; reflexivity. Qed.

#[global] Instance CompactBlock_laws : BlockBaseLaws CompactBlock.t.
Proof. split; intros h [? ? ? ? ? ?]; reflexivity. Qed.

Lemma header_bytes_ok (h : BlockHeader.t) :
  header_u32 h -> BlockHeader.__bytes__ h = Ok (header_wire h).
Proof.
  intros (Hv & Ht & Hb & Hn). unfold BlockHeader.__bytes__, header_wire.
  rewrite (pack_u32_ok Hv), (pack_u32_ok Ht), (pack_u32_ok Hb), (pack_u32_ok Hn).
  reflexivity.
Qed.

Lemma header_hash_ok (h : BlockHeader.t) :
  header_u32 h -> BlockHeader.hash h = Ok (dhash (header_wire h)).
Proof.
  intros H. unfold BlockHeader.hash. rewrite (header_bytes_ok H). reflexivity.
Qed.

Lemma hash_number_range (h : BlockHeader.t) : 0 <= hash_number h < 2 ^ 256.
Proof.
  unfold hash_number.
  pose proof (int_from_bytes_big_range (rev (dhash (header_wire h)))) as H.
  rewrite length_rev, dhash_length in H.
  change (256 ^ Z.of_nat 32) with (2 ^ 256) in H. exact H.
Qed.

Section BlockBaseMethods.
Context {S : Type} `{BlockBaseLaws S}.

Lemma compute_hash_ok (self : S) (nonce : Z) :
  let hdr := BlockHeader.set_nonce nonce (BlockBase.block_header self) in
  header_u32 hdr ->
  BlockBase.compute_hash nonce self
  = (Ok (dhash (header_wire hdr)), BlockBase.set_block_header hdr self).
Proof.
  intros hdr Hu. unfold BlockBase.compute_hash. run_monad.
  rewrite header_set. fold hdr. rewrite (header_hash_ok Hu). reflexivity.
Qed.

Lemma check_valid_nonce_ok (self : S) (nonce t : Z) :
  let hdr := BlockHeader.set_nonce nonce (BlockBase.block_header self) in
  header_u32 hdr ->
  BlockBase.target self = Some t ->
  BlockBase.check_valid_nonce nonce self
  = (Ok (hash_number hdr <? t), BlockBase.set_block_header hdr self).
Proof.
  intros hdr Hu Ht. unfold BlockBase.check_valid_nonce. unfold bind at 1.
  rewrite (@compute_hash_ok self nonce Hu). fold hdr. run_monad.
  rewrite target_set, Ht. reflexivity.
Qed.
End BlockBaseMethods.

(** The largest target a 32-bit [bits] decodes to exceeds every
    256-bit number. *)
Lemma decode_max_bits : exists t, decode_compact_target 0xffffffff = Ok t /\ 2 ^ 256 <= t.
Proof.
  eexists. split; [vm_compute; reflexivity|]. vm_compute. discriminate.
Qed.

Lemma check_result_bounds (h : BlockHeader.t) (t : Z) :
  decode_compact_target (BlockHeader.bits h) = Ok t ->
  (t = 0 -> (hash_number h <? t) = false)
  /\ (BlockHeader.bits h = 0xffffffff -> (hash_number h <? t) = true).
Proof.
  intros Hd. pose proof (hash_number_range h) as Hr. split.
  - intros ->. apply Z.ltb_ge. lia.
  - intros Hb. rewrite Hb in Hd.
    destruct decode_max_bits as (t' & Ht' & Hge).
    assert (t = t') by congruence. subst t'. apply Z.ltb_lt. lia.
Qed.

(** The constructors set [target] to the target decoded from the
    header's [bits]. *)
Lemma Block_init_target (height version : Z) (prev : bytes) (time bits nonce : Z)
      (txns : list Transaction) (b : Block.t) :
  Block.__init__ height version prev time bits nonce txns = Ok b ->
  exists t, Block.target b = Some t
    /\ decode_compact_target (BlockHeader.bits (Block.block_header b)) = Ok t.
Proof.
  intros H. destruct (Block_init_inv _ _ _ _ _ _ _ H) as (root & tg & _ & Hd & ->).
  exists tg. split; [reflexivity|exact Hd].
Qed.

Lemma CompactBlock_init_no_coinbase (height version : Z) (prev : bytes) (time bits : Z)
      (merkle_edge : list bytes) :
  CompactBlock.__init__ height version prev time bits merkle_edge None
  = let? t := decode_compact_target bits in
    Ok (CompactBlock.mk height
          (BlockHeader.mk version prev (zero_bytes 32) time bits 0)
          t merkle_edge None None).
Proof.
  unfold CompactBlock.__init__, BlockBase.__init__.
  destruct (decode_compact_target bits); reflexivity.
Qed.

(** C5. For a [Block] and for a [CompactBlock] whose [target] is the
    target decoded from the header's [bits] (as the constructors set
    it) and whose header fields are 32-bit, [check_valid_nonce(nonce)]
    leaves the object with the given nonce in its header, everything
    else as it was, and returns whether the double hash of the 80
    bytes of the header with that nonce, byte-reversed and read
    big-endian, is strictly below the target: false for every nonce
    when the target is zero, true for every nonce when [bits] is
    [0xffffffff], the largest target. *)
Theorem C5_check_valid_nonce :
  (forall (b : Block.t) (nonce t : Z),
      let h := Block.block_header b in
      let hdr := BlockHeader.mk (BlockHeader.version h) (BlockHeader.prev_block_hash h)
                                (BlockHeader.merkle_root_hash h) (BlockHeader.time h)
                                (BlockHeader.bits h) nonce in
      header_u32 hdr ->
      Block.target b = Some t ->
      decode_compact_target (BlockHeader.bits h) = Ok t ->
      BlockBase.check_valid_nonce nonce b
      = (Ok (int_from_bytes_big (rev (dhash (header_wire hdr))) <? t),
         Block.mk (Block.height b) hdr (Block.target b) (Block.txns b)
                  (Block.transactions b) (Block.merkle_tree b))
      /\ (t = 0 -> (int_from_bytes_big (rev (dhash (header_wire hdr))) <? t) = false)
      /\ (BlockHeader.bits h = 0xffffffff ->
          (int_from_bytes_big (rev (dhash (header_wire hdr))) <? t) = true))
  /\
  (forall (cb : CompactBlock.t) (nonce : Z),
      let h := CompactBlock.block_header cb in
      let hdr := BlockHeader.mk (BlockHeader.version h) (BlockHeader.prev_block_hash h)
                                (BlockHeader.merkle_root_hash h) (BlockHeader.time h)
                                (BlockHeader.bits h) nonce in
      let t := CompactBlock.target cb in
      header_u32 hdr ->
      decode_compact_target (BlockHeader.bits h) = Ok t ->
      BlockBase.check_valid_nonce nonce cb
      = (Ok (int_from_bytes_big (rev (dhash (header_wire hdr))) <? t),
         CompactBlock.mk (CompactBlock.height cb) hdr (CompactBlock.target cb)
                         (CompactBlock.merkle_edge cb) (CompactBlock._cb_txn cb)
                         (CompactBlock._midstate cb))
      /\ (t = 0 -> (int_from_bytes_big (rev (dhash (header_wire hdr))) <? t) = false)
      /\ (BlockHeader.bits h = 0xffffffff ->
          (int_from_bytes_big (rev (dhash (header_wire hdr))) <? t) = true)).
Proof.
  split.
  - intros b nonce t h hdr Hu Ht Hd.
    split; [|exact (@check_result_bounds hdr t Hd)].
    exact (@check_valid_nonce_ok Block.t _ _ b nonce t Hu Ht).
  - intros cb nonce h hdr t Hu Hd.
    split; [|exact (@check_result_bounds hdr t Hd)].
    exact (@check_valid_nonce_ok CompactBlock.t _ _ cb nonce t Hu eq_refl).
Qed.

Lemma C5_check_valid_nonce_witness :
  BlockBase.check_valid_nonce 5 ex_block
  = (Ok false,
     Block.mk (Block.height ex_block)
              (BlockHeader.mk 1 (zero_bytes 32)
                 (BlockHeader.merkle_root_hash (Block.block_header ex_block))
                 0 0x1d00ffff 5)
              (Block.target ex_block) (Block.txns ex_block)
              (Block.transactions ex_block) (Block.merkle_tree ex_block))
  /\ fst (BlockBase.check_valid_nonce 5 ex_compact) = Ok false
  /\ fst (BlockBase.check_valid_nonce 5 ex_compact_max) = Ok true.
Proof.
  split; [|split].
  - destruct (proj1 C5_check_valid_nonce ex_block 5
                (0xffff * 256 ^ 26)) as (Hc & _ & _).
    + unfold header_u32, u32. vm_compute. intuition discriminate.
    + vm_compute. reflexivity.
    + vm_compute. reflexivity.
    + rewrite Hc. vm_compute. reflexivity.
  - destruct (proj2 C5_check_valid_nonce ex_compact 5) as (Hc & _ & _).
    + unfold header_u32, u32. vm_compute. intuition discriminate.
    + vm_compute. reflexivity.
    + rewrite Hc. vm_compute. reflexivity.
  - destruct (proj2 C5_check_valid_nonce ex_compact_max 5) as (Hc & _ & Ht).
    + unfold header_u32, u32. vm_compute. intuition discriminate.
    + vm_compute. reflexivity.
    + rewrite Hc. cbn [fst]. rewrite (Ht eq_refl). reflexivity.
Defined.

(** ** CompactBlock *)

(** C9 as stated fails: a [CompactBlock] built without a coinbase
    answers a proof-of-work check from the placeholder root; nothing
    is raised. *)
Lemma C9_uninitialized_counterexample :
  ex_compact_init 0x1d00ffff = Ok ex_compact
  /\ CompactBlock._cb_txn ex_compact = None
  /\ fst (BlockBase.check_valid_nonce 0 ex_compact) = Ok false
  /\ fst (BlockBase.check_valid_nonce 0 ex_compact)
     <> Raise (SpecCondition UninitializedBlock)
  /\ is_ok (fst (BlockBase.compute_hash 0 ex_compact)) = true.
Proof.
  split; [vm_compute; reflexivity|]. split; [reflexivity|].
  assert (H : fst (BlockBase.check_valid_nonce 0 ex_compact) = Ok false)
    by (vm_compute; reflexivity).
  split; [exact H|]. split; [rewrite H; discriminate|].
  vm_compute. reflexivity.
Qed.

(** C9, amended. A [CompactBlock] constructed without a coinbase
    transaction has the 32 zero bytes as merkle root and no
    [_midstate]; [compute_hash] and [check_valid_nonce] raise nothing
    on it: they hash the header with that placeholder root and return
    the hash, and whether its number is below the target. *)
Theorem C9_no_coinbase_check_returns (height version : Z) (prev : bytes)
        (time bits nonce : Z) (merkle_edge : list bytes) :
  u32 version -> u32 time -> u32 bits -> u32 nonce ->
  3 <= Z.shiftr bits 24 ->
  let hdr := BlockHeader.mk version prev (zero_bytes 32) time bits nonce in
  exists cb,
    CompactBlock.__init__ height version prev time bits merkle_edge None = Ok cb
    /\ CompactBlock._cb_txn cb = None
    /\ CompactBlock._midstate cb = None
    /\ BlockHeader.merkle_root_hash (CompactBlock.block_header cb) = zero_bytes 32
    /\ BlockBase.compute_hash nonce cb
       = (Ok (dhash (header_wire hdr)), CompactBlock.set_block_header hdr cb)
    /\ BlockBase.check_valid_nonce nonce cb
       = (Ok (hash_number hdr <? CompactBlock.target cb),
          CompactBlock.set_block_header hdr cb).
Proof.
  intros Hv Ht Hb Hn He hdr.
  rewrite CompactBlock_init_no_coinbase, decode_compact_target_spec.
  destruct (Z.ltb_spec (Z.shiftr bits 24) 3) as [|_]; [lia|]. cbn [obind].
  eexists. split; [reflexivity|].
  assert (Hu : header_u32 hdr) by exact (conj Hv (conj Ht (conj Hb Hn))).
  split; [reflexivity|]. split; [reflexivity|]. split; [reflexivity|]. split.
  - match goal with |- BlockBase.compute_hash _ ?c = _ =>
      exact (@compute_hash_ok CompactBlock.t _ _ c nonce Hu) end.
  - match goal with |- BlockBase.check_valid_nonce _ ?c = _ =>
      exact (@check_valid_nonce_ok CompactBlock.t _ _ c nonce _ Hu eq_refl) end.
Qed.

Lemma C9_no_coinbase_check_returns_witness :
  exists cb,
    ex_compact_init 0x1d00ffff = Ok cb
    /\ fst (BlockBase.check_valid_nonce 7 cb)
       = Ok (hash_number (BlockHeader.mk 1 (zero_bytes 32) (zero_bytes 32) 0 0x1d00ffff 7)
             <? CompactBlock.target cb).
Proof.
  destruct (@C9_no_coinbase_check_returns 1 1 (zero_bytes 32) 0 0x1d00ffff 7 [])
    as (cb & Hi & _ & _ & _ & _ & Hc);
    try (unfold u32; cbn; lia).
  exists cb. split; [exact Hi|]. rewrite Hc. reflexivity.
Defined.

Lemma header_u32_set_root (r : bytes) (h : BlockHeader.t) :
  header_u32 h -> header_u32 (BlockHeader.set_merkle_root_hash r h).
Proof. intros H. exact H. Qed.

(** C10. On a [CompactBlock] whose header fields are 32-bit, the
    coinbase setter raises nothing for any transaction at all, whatever
    its inputs: it stores the transaction, sets the header's merkle
    root to the fold of [dhash(cur_hash + e)] over the merkle edge from
    the transaction's hash, the other header fields as they were, and
    then stores as [_midstate] the eight midstate words, each
    big-endian, of the first 64 bytes of that header. *)
Theorem C10_compact_setter_unconditional (cb : CompactBlock.t) (cb_txn : Transaction) :
  header_u32 (CompactBlock.block_header cb) ->
  let h := CompactBlock.block_header cb in
  let root := fold_left (fun cur_hash e => dhash (cur_hash ++ e))
                        (CompactBlock.merkle_edge cb) (Txn.hash cb_txn) in
  let hdr := BlockHeader.mk (BlockHeader.version h) (BlockHeader.prev_block_hash h)
                            root (BlockHeader.time h) (BlockHeader.bits h)
                            (BlockHeader.nonce h) in
  CompactBlock.set_coinbase_transaction cb_txn cb
  = (Ok tt,
     CompactBlock.mk (CompactBlock.height cb) hdr (CompactBlock.target cb)
                     (CompactBlock.merkle_edge cb) (Some cb_txn)
                     (Some (flat_map (fun w => rev (int_to_bytes_little 4 w))
                                     (sha256_midstate (firstn 64 (header_wire hdr)))))).
Proof.
  intros Hu h root hdr.
  unfold CompactBlock.set_coinbase_transaction, CompactBlock._complete_merkle_edge,
      CompactBlock._compute_midstate.
    run_monad. subst hdr root h. destruct cb as [hg bh tg me c ms].
    cbn [CompactBlock.set_cb_txn CompactBlock._cb_txn CompactBlock.merkle_edge
         CompactBlock.block_header CompactBlock.set_block_header CompactBlock.height
         CompactBlock.target CompactBlock._midstate] in *.
    match goal with
    | |- context [BlockHeader.__bytes__ ?x] =>
        rewrite (@header_bytes_ok x) by (apply header_u32_set_root; exact Hu)
    end.
    rewrite pack_midstate_ok. unfold slice. cbn [Nat.sub skipn]. reflexivity.
Qed.

Lemma C10_compact_setter_unconditional_witness :
  (fst (CompactBlock.set_coinbase_transaction ex_two_inputs ex_compact) = Ok tt
   /\ CompactBlock._cb_txn (snd (CompactBlock.set_coinbase_transaction ex_two_inputs ex_compact))
      = Some ex_two_inputs
   /\ BlockHeader.merkle_root_hash
        (CompactBlock.block_header
           (snd (CompactBlock.set_coinbase_transaction ex_two_inputs ex_compact)))
      = Txn.hash ex_two_inputs)
  /\ fst (CompactBlock.set_coinbase_transaction ex_spending ex_compact) = Ok tt.
Proof.
  assert (Hu : header_u32 (CompactBlock.block_header ex_compact)).
  { unfold header_u32, u32. vm_compute. intuition discriminate. }
  split.
  - pose proof (@C10_compact_setter_unconditional ex_compact ex_two_inputs Hu) as Hc.
    cbv zeta in Hc. rewrite Hc. repeat split.
  - pose proof (@C10_compact_setter_unconditional ex_compact ex_spending Hu) as Hc.
    cbv zeta in Hc. rewrite Hc. reflexivity.
Defined.

(** ** utils.py against the specification *)

(** C3. At height 420000 (era 2) [compute_reward] divides by
    [era + 1 = 3]: it returns the double nearest 5000000000/3
    (1666666666.6666667), not 5000000000 / 2^2 = 1250000000. At the
    three heights of the specification's schedule, all in eras 0 and
    1, it agrees with the halving schedule. *)
Theorem C3_compute_reward_third_era :
  420000 / 210000 = 2
  /\ compute_reward 420000 = Ok (PyFloat (S754_finite false 6990506666666667 (-22)))
  /\ eq_Q (PyFloat (S754_finite false 6990506666666667 (-22)))
          (inject_Z 5000000000 / inject_Z (2 ^ 2)) = false
  /\ (exists v, compute_reward 0 = Ok v /\ eq_Q v (inject_Z 5000000000) = true)
  /\ (exists v, compute_reward 209999 = Ok v /\ eq_Q v (inject_Z 5000000000) = true)
  /\ (exists v, compute_reward 210000 = Ok v /\ eq_Q v (inject_Z 2500000000) = true).
Proof.
  split; [reflexivity|]. split; [vm_compute; reflexivity|].
  split; [vm_compute; reflexivity|]. exact compute_reward_examples.
Qed.

(** C4. [encode_compact_target] returns for no target: its shift
    count is a float, and [int >> float] is a [TypeError]. On
    representative [bits] with exponent at least 3, one of them with
    the top bit of the mantissa set, the round trip raises
    [TypeError]. *)
Theorem C4_target_round_trip_raises :
  (forall target : Z,
      encode_compact_target target = Raise TypeError
      \/ encode_compact_target target = Raise OverflowError)
  /\ Forall (fun bits =>
               3 <= Z.shiftr bits 24
               /\ is_ok (decode_compact_target bits) = true
               /\ target_round_trip bits = Raise TypeError)
            [0x1d00ffff; 0x1b0404cb; 0x04923456; 0x03000001]
  /\ Z.testbit 0x04923456 23 = true.
Proof.
  split; [exact encode_compact_target_raises|]. split; [|reflexivity].
  repeat constructor; try (vm_compute; discriminate); vm_compute; reflexivity.
Qed.

(** C7 as stated fails on the exception class: with exponent 2 the
    decoder attempts [1 << -8] and Python raises [ValueError]; the
    code has no exponent check and no [DecodeError]. *)
Lemma C7_decode_error_counterexample :
  u32 0x02ffffff
  /\ Z.shiftr 0x02ffffff 24 = 2
  /\ decode_compact_target 0x02ffffff = Raise ValueError
  /\ decode_compact_target 0x02ffffff <> Raise (SpecCondition DecodeError).
Proof.
  split; [unfold u32; lia|]. split; [reflexivity|].
  assert (H : decode_compact_target 0x02ffffff = Raise ValueError) by reflexivity.
  split; [exact H|]. rewrite H. discriminate.
Qed.

(** C7, amended. For every 32-bit [bits] whose exponent
    [bits >> 24] is below 3, [decode_compact_target] raises
    [ValueError] (the negative shift count); for an exponent of at
    least 3 it returns [mantissa * 256 ^ (exponent - 3)]. *)
Theorem C7_decode_compact_target (bits : Z) :
  u32 bits ->
  decode_compact_target bits
  = if Z.shiftr bits 24 <? 3 then Raise ValueError
    else Ok (Z.land bits 0xffffff * 256 ^ (Z.shiftr bits 24 - 3)).
Proof. intros _. apply decode_compact_target_spec. Qed.

Lemma C7_decode_compact_target_witness :
  decode_compact_target 0x02ffffff = Raise ValueError
  /\ decode_compact_target 0x1d00ffff = Ok (0xffff * 256 ^ 26).
Proof.
  split.
  - assert (H : u32 0x02ffffff) by (unfold u32; lia).
    exact (@C7_decode_compact_target 0x02ffffff H).
  - assert (H : u32 0x1d00ffff) by (unfold u32; lia).
    exact (@C7_decode_compact_target 0x1d00ffff H).
Defined.

(** ** Supporting facts: test vectors, header round trip, largest target *)

(** The FIPS 180-4 test vector for ["abc"], and the digest of the
    empty message, as [hashlib] gives them. *)
Example sha256_abc :
  map byte_to_Z (SHA256.sha256 ["a"; "b"; "c"]%byte)
  = [186; 120; 22; 191; 143; 1; 207; 234; 65; 65; 64; 222; 93; 174; 34; 35;
     176; 3; 97; 163; 150; 23; 122; 156; 180; 16; 255; 97; 242; 0; 21; 173].
Proof. vm_compute. reflexivity. Qed.

Example sha256_empty :
  map byte_to_Z (SHA256.sha256 [])
  = [227; 176; 196; 66; 152; 252; 28; 20; 154; 251; 244; 200; 153; 111; 185; 36;
     39; 174; 65; 228; 100; 155; 147; 76; 164; 149; 153; 27; 120; 82; 184; 85].
Proof. vm_compute. reflexivity. Qed.

Lemma firstn_plus (A : Type) (a n : nat) (l : list A) :
  firstn (a + n) l = firstn a l ++ firstn n (skipn a l).
Proof.
  revert l. induction a as [|a IH]; intros l; [reflexivity|].
  destruct l as [|x l]; cbn [Nat.add firstn skipn app].
  - now rewrite firstn_nil.
  - now rewrite IH.
Qed.

Lemma slice_0 (n : nat) (b : bytes) : slice 0 n b = firstn n b.
Proof. unfold slice. now rewrite Nat.sub_0_r. Qed.

Lemma unpack_u32_ok (b : bytes) :
  (4 <= List.length b)%nat ->
  unpack_u32 b = Ok (int_from_bytes_little (firstn 4 b), skipn 4 b).
Proof.
  intros H. unfold unpack_u32, Struct.unpack_le. rewrite slice_0.
  rewrite length_firstn, Nat.min_l by exact H. reflexivity.
Qed.

Lemma pack_unpack_u32 (b : bytes) :
  List.length b = 4%nat -> pack_u32 (int_from_bytes_little b) = Ok b.
Proof.
  intros H. unfold pack_u32.
  pose proof (int_from_bytes_little_range b) as Hr. rewrite H in Hr.
  rewrite (pack_le_ok 4 Hr). rewrite <- H at 1.
  now rewrite int_to_from_bytes_little.
Qed.

(** The header round trip of the specification (section 8): parsing
    at least 80 bytes consumes exactly 80 and serializing the header
    gives them back. *)
Lemma header_round_trip (b : bytes) :
  (80 <= List.length b)%nat ->
  exists h,
    BlockHeader.from_bytes b = Ok (h, skipn 80 b)
    /\ BlockHeader.__bytes__ h = Ok (firstn 80 b).
Proof.
  intros H. unfold BlockHeader.from_bytes.
  rewrite (unpack_u32_ok b) by lia. cbn [obind]. cbv beta iota zeta.
  rewrite !slice_0.
  set (b1 := skipn 4 b).
  assert (L1 : List.length b1 = (List.length b - 4)%nat) by apply length_skipn.
  set (b2 := skipn 32 b1).
  assert (L2 : List.length b2 = (List.length b1 - 32)%nat) by apply length_skipn.
  set (b3 := skipn 32 b2).
  assert (L3 : List.length b3 = (List.length b2 - 32)%nat) by apply length_skipn.
  rewrite (unpack_u32_ok b3) by lia. cbn [obind].
  set (b4 := skipn 4 b3).
  assert (L4 : List.length b4 = (List.length b3 - 4)%nat) by apply length_skipn.
  rewrite (unpack_u32_ok b4) by lia. cbn [obind].
  set (b5 := skipn 4 b4).
  assert (L5 : List.length b5 = (List.length b4 - 4)%nat) by apply length_skipn.
  rewrite (unpack_u32_ok b5) by lia. cbn [obind].
  eexists. split.
  - f_equal. f_equal. unfold b5, b4, b3, b2, b1. rewrite !skipn_skipn. reflexivity.
  - unfold BlockHeader.__bytes__.
    cbn [BlockHeader.version BlockHeader.time BlockHeader.bits BlockHeader.nonce
         BlockHeader.prev_block_hash BlockHeader.merkle_root_hash].
    rewrite !pack_unpack_u32 by (rewrite length_firstn; lia). cbn [obind].
    f_equal. unfold b5, b4, b3, b2, b1.
    rewrite (firstn_plus 4 76 b : firstn 80 b = _).
    rewrite (firstn_plus 32 44 (skipn 4 b) : firstn 76 _ = _).
    rewrite (firstn_plus 32 12 (skipn 32 (skipn 4 b)) : firstn 44 _ = _).
    rewrite (firstn_plus 4 8 (skipn 32 (skipn 32 (skipn 4 b))) : firstn 12 _ = _).
    rewrite (firstn_plus 4 4 (skipn 4 (skipn 32 (skipn 32 (skipn 4 b))))
             : firstn 8 _ = _).
    reflexivity.
Qed.

(** [bits = 0xffffffff] decodes to the largest target of all 32-bit
    [bits]. *)
Lemma decode_le_max (bits t : Z) :
  u32 bits -> decode_compact_target bits = Ok t ->
  t <= 0xffffff * 256 ^ 252
  /\ decode_compact_target 0xffffffff = Ok (0xffffff * 256 ^ 252).
Proof.
  intros [H0 H1] Hd. split; [|reflexivity].
  rewrite decode_compact_target_spec in Hd.
  destruct (Z.ltb_spec (Z.shiftr bits 24) 3) as [|He]; [discriminate|].
  assert (Ht : t = Z.land bits 0xffffff * 256 ^ (Z.shiftr bits 24 - 3)) by congruence.
  rewrite Ht. clear Ht Hd.
  change 0xffffff with (Z.ones 24) at 1. rewrite Z.land_ones by lia.
  rewrite Z.shiftr_div_pow2 in * by lia.
  assert (Hm : 0 <= bits mod 2 ^ 24 <= 0xffffff).
  { pose proof (Z.mod_pos_bound bits (2 ^ 24) ltac:(lia)). lia. }
  assert (Hx : bits / 2 ^ 24 <= 255).
  { assert (bits / 2 ^ 24 < 256) by (apply Z.div_lt_upper_bound; lia). lia. }
  assert (Hp : 0 < 256 ^ (bits / 2 ^ 24 - 3) <= 256 ^ 252).
  { split; [apply Z.pow_pos_nonneg; lia|apply Z.pow_le_mono_r; lia]. }
  transitivity (0xffffff * 256 ^ (bits / 2 ^ 24 - 3)).
  - apply Z.mul_le_mono_nonneg_r; lia.
  - apply Z.mul_le_mono_nonneg_l; lia.
Qed.



(** * Further properties of utils.py *)

(** ** Fixed-width integers *)

Lemma firstn_exact_app (A : Type) (l r : list A) : firstn (List.length l) (l ++ r) = l.
Proof.
  rewrite firstn_app, Nat.sub_diag, firstn_all. cbn [firstn]. apply app_nil_r.
Qed.

Lemma skipn_exact_app (A : Type) (l r : list A) : skipn (List.length l) (l ++ r) = r.
Proof.
  rewrite skipn_app, Nat.sub_diag, skipn_all. reflexivity.
Qed.

(** What [struct.pack] wrote, [struct.unpack] reads back from the
    front of a longer stream. *)
Lemma unpack_le_pack_le (n : nat) (i : Z) (rest : bytes) :
  0 <= i < 256 ^ Z.of_nat n ->
  Struct.unpack_le n (firstn n (int_to_bytes_little n i ++ rest)) = Ok i
  /\ skipn n (int_to_bytes_little n i ++ rest) = rest.
Proof.
  intros H.
  pose proof (int_to_bytes_little_length n i) as L.
  split.
  - rewrite <- L at 2. rewrite firstn_exact_app.
    unfold Struct.unpack_le. rewrite L, Nat.eqb_refl.
    rewrite int_from_to_bytes_little, Z.mod_small by exact H. reflexivity.
  - rewrite <- L at 1. apply skipn_exact_app.
Qed.

(** X1. [unpack_u32] inverts [pack_u32] on every 32-bit value, and
    [unpack_u64] inverts [pack_u64] on every 64-bit value: the packed
    form has 4, respectively 8, bytes, and reading it from the front
    of a longer stream gives the value and the rest of the stream. *)
Theorem unpack_pack_fixed_width (i : Z) (rest : bytes) :
  (0 <= i < 2 ^ 32 ->
   exists b, pack_u32 i = Ok b /\ List.length b = 4%nat
             /\ unpack_u32 (b ++ rest) = Ok (i, rest))
  /\ (0 <= i < 2 ^ 64 ->
      exists b, pack_u64 i = Ok b /\ List.length b = 8%nat
                /\ unpack_u64 (b ++ rest) = Ok (i, rest)).
Proof.
  split; intros H.
  - exists (int_to_bytes_little 4 i).
    split; [apply pack_u32_ok; exact H|]. split; [apply int_to_bytes_little_length|].
    assert (H' : 0 <= i < 256 ^ Z.of_nat 4) by exact H.
    destruct (unpack_le_pack_le 4 rest H') as [Hu Hs].
    unfold unpack_u32. rewrite slice_0, Hu. cbn [obind]. rewrite Hs. reflexivity.
  - exists (int_to_bytes_little 8 i).
    assert (H' : 0 <= i < 256 ^ Z.of_nat 8) by exact H.
    split; [apply pack_le_ok; exact H'|]. split; [apply int_to_bytes_little_length|].
    destruct (unpack_le_pack_le 8 rest H') as [Hu Hs].
    unfold unpack_u64. rewrite slice_0, Hu. cbn [obind]. rewrite Hs. reflexivity.
Qed.

Lemma unpack_pack_fixed_width_witness :
  (exists b, pack_u32 0x1d00ffff = Ok b /\ List.length b = 4%nat
             /\ unpack_u32 (b ++ [x2a]) = Ok (0x1d00ffff, [x2a]))
  /\ (exists b, pack_u64 5000000000 = Ok b /\ List.length b = 8%nat
                /\ unpack_u64 (b ++ [x2a]) = Ok (5000000000, [x2a])).
Proof.
  split.
  - apply (proj1 (unpack_pack_fixed_width 0x1d00ffff [x2a])). lia.
  - apply (proj2 (unpack_pack_fixed_width 5000000000 [x2a])). lia.
Defined.

(** X2. A stream shorter than the width is a [struct.error] for both
    readers: the slice comes out short and [struct.unpack] refuses
    it. *)
Theorem unpack_short_raises (b : bytes) :
  ((List.length b < 4)%nat -> unpack_u32 b = Raise StructError)
  /\ ((List.length b < 8)%nat -> unpack_u64 b = Raise StructError).
Proof.
  split; intros H.
  - unfold unpack_u32, Struct.unpack_le. rewrite slice_0, length_firstn.
    destruct (Nat.eqb_spec (Nat.min 4 (List.length b)) 4); [lia|reflexivity].
  - unfold unpack_u64, Struct.unpack_le. rewrite slice_0, length_firstn.
    destruct (Nat.eqb_spec (Nat.min 8 (List.length b)) 8); [lia|reflexivity].
Qed.

Lemma unpack_short_raises_witness :
  unpack_u32 [x01; x02; x03] = Raise StructError
  /\ unpack_u64 [x01; x02; x03; x04] = Raise StructError.
Proof.
  split.
  - apply (proj1 (unpack_short_raises [x01; x02; x03])). cbn. lia.
  - apply (proj2 (unpack_short_raises [x01; x02; x03; x04])). cbn. lia.
Defined.

(** ** Compact-size integers and variable-length strings *)

Lemma byte_to_Z_of_small (n : Z) : 0 <= n < 256 -> byte_to_Z (byte_of_Z n) = n.
Proof. intros H. rewrite byte_to_of_Z. apply Z.mod_small. exact H. Qed.

Lemma compact_int_round_trip (n : Z) (rest : bytes) :
  0 <= n < 2 ^ 64 ->
  exists b,
    pack_compact_int n = Ok b
    /\ unpack_compact_int (b ++ rest) = Ok (Some (n, rest))
    /\ List.length b
       = if n <? 0xfd then 1%nat else if n <=? 0xffff then 3%nat
         else if n <=? 0xffffffff then 5%nat else 9%nat.
Proof.
  intros H. unfold pack_compact_int.
  destruct (Z.ltb_spec n 0xfd) as [H1|H1].
  - exists [byte_of_Z n]. split; [apply (pack_le_ok 1); cbn; lia|]. split; [|reflexivity].
    cbn [app unpack_compact_int]. rewrite byte_to_Z_of_small by lia.
    destruct (Z.ltb_spec n 0xfd); [reflexivity|lia].
  - destruct (Z.leb_spec n 0xffff) as [H2|H2].
    + assert (Hr : 0 <= n < 256 ^ Z.of_nat 2) by (cbn; lia).
      rewrite (pack_le_ok 2 Hr). cbn [obind]. eexists. split; [reflexivity|].
      split; [|cbn [List.length]; now rewrite int_to_bytes_little_length].
      destruct (unpack_le_pack_le 2 rest Hr) as [Hu Hs].
      cbn [app unpack_compact_int]. change (byte_to_Z xfd) with 253.
      cbn [Z.ltb Z.eqb Z.compare Pos.compare Pos.compare_cont Pos.eqb].
      unfold slice. cbn [skipn Nat.sub].
      rewrite Hu. cbn [obind]. exact (f_equal (fun r => Ok (Some (n, r))) Hs).
    + destruct (Z.leb_spec n 0xffffffff) as [H3|H3].
      * assert (Hr : 0 <= n < 256 ^ Z.of_nat 4) by (cbn; lia).
        rewrite (pack_le_ok 4 Hr). cbn [obind]. eexists. split; [reflexivity|].
        split; [|cbn [List.length]; now rewrite int_to_bytes_little_length].
        destruct (unpack_le_pack_le 4 rest Hr) as [Hu Hs].
        cbn [app unpack_compact_int]. change (byte_to_Z xfe) with 254.
        cbn [Z.ltb Z.eqb Z.compare Pos.compare Pos.compare_cont Pos.eqb].
        unfold slice. cbn [skipn Nat.sub].
        rewrite Hu. cbn [obind]. exact (f_equal (fun r => Ok (Some (n, r))) Hs).
      * assert (Hr : 0 <= n < 256 ^ Z.of_nat 8) by (change (256 ^ Z.of_nat 8) with (2 ^ 64); lia).
        rewrite (pack_le_ok 8 Hr). cbn [obind]. eexists. split; [reflexivity|].
        split; [|cbn [List.length]; now rewrite int_to_bytes_little_length].
        destruct (unpack_le_pack_le 8 rest Hr) as [Hu Hs].
        cbn [app unpack_compact_int]. change (byte_to_Z xff) with 255.
        cbn [Z.ltb Z.eqb Z.compare Pos.compare Pos.compare_cont Pos.eqb].
        unfold slice. cbn [skipn Nat.sub].
        rewrite Hu. cbn [obind]. exact (f_equal (fun r => Ok (Some (n, r))) Hs).
Qed.

(** X3. For every [0 <= n < 2^64], [pack_compact_int] returns 1, 3, 5
    or 9 bytes according to the thresholds [0xfd], [0xffff] and
    [0xffffffff], and [unpack_compact_int] reads [n] back from the
    front of any stream that starts with them, leaving the rest. *)
Theorem unpack_pack_compact_int (n : Z) (rest : bytes) :
  0 <= n < 2 ^ 64 ->
  exists b,
    pack_compact_int n = Ok b
    /\ unpack_compact_int (b ++ rest) = Ok (Some (n, rest))
    /\ List.length b
       = if n <? 0xfd then 1%nat else if n <=? 0xffff then 3%nat
         else if n <=? 0xffffffff then 5%nat else 9%nat.
Proof. apply compact_int_round_trip. Qed.

Lemma unpack_pack_compact_int_witness :
  exists b,
    pack_compact_int 300 = Ok b
    /\ unpack_compact_int (b ++ [x07]) = Ok (Some (300, [x07]))
    /\ List.length b = 3%nat.
Proof. apply (@unpack_pack_compact_int 300 [x07]). lia. Defined.

(** X4. Outside [0 <= n < 2^64] [pack_compact_int] raises
    [struct.error]: a negative [n] in the one-byte branch, a large one
    in the eight-byte branch. *)
Theorem pack_compact_int_out_of_range (n : Z) :
  n < 0 \/ 2 ^ 64 <= n -> pack_compact_int n = Raise StructError.
Proof.
  intros H. unfold pack_compact_int, Struct.pack_le.
  destruct (Z.ltb_spec n 0xfd) as [H1|H1].
  - destruct H as [H|H]; [|lia].
    destruct (Z.leb_spec 0 n); [lia|reflexivity].
  - destruct H as [H|H]; [lia|].
    destruct (Z.leb_spec n 0xffff); [lia|].
    destruct (Z.leb_spec n 0xffffffff); [lia|].
    destruct (Z.leb_spec 0 n); [|lia].
    destruct (Z.ltb_spec n (256 ^ Z.of_nat 8)) as [H4|H4]; [|reflexivity].
    change (256 ^ Z.of_nat 8) with (2 ^ 64) in H4. lia.
Qed.

Lemma pack_compact_int_out_of_range_witness :
  pack_compact_int (-1) = Raise StructError
  /\ pack_compact_int (2 ^ 64) = Raise StructError.
Proof.
  split; apply pack_compact_int_out_of_range; [left|right]; lia.
Defined.

Lemma unpack_le_firstn (n : nat) (r : bytes) :
  (n <= List.length r)%nat ->
  Struct.unpack_le n (firstn n r) = Ok (int_from_bytes_little (firstn n r))
  /\ 0 <= int_from_bytes_little (firstn n r) < 256 ^ Z.of_nat n.
Proof.
  intros H. unfold Struct.unpack_le.
  assert (L : List.length (firstn n r) = n) by (rewrite length_firstn; lia).
  rewrite L, Nat.eqb_refl. split; [reflexivity|].
  pose proof (int_from_bytes_little_range (firstn n r)) as Hr. now rewrite L in Hr.
Qed.

Lemma unpack_le_firstn_short (n : nat) (r : bytes) :
  (List.length r < n)%nat -> Struct.unpack_le n (firstn n r) = Raise StructError.
Proof.
  intros H. unfold Struct.unpack_le. rewrite length_firstn.
  destruct (Nat.eqb_spec (Nat.min n (List.length r)) n); [lia|reflexivity].
Qed.

(** X5. [unpack_compact_int] has three outcomes only, decided by the
    first byte and the number of bytes after it: [IndexError] on the
    empty stream; [struct.error] when the first byte is a marker
    ([0xfd], [0xfe], [0xff]) and fewer than 2, 4, 8 bytes follow; and
    otherwise the value (the first byte itself below [0xfd], else the
    little-endian number in the 2, 4, 8 bytes after the marker),
    which is below [2^64], together with the stream minus the 1, 3, 5
    or 9 bytes read. It never returns the [None] of its last
    [else]. *)
Theorem unpack_compact_int_outcomes :
  unpack_compact_int [] = Raise IndexError
  /\ forall (b0 : byte) (r : bytes),
      let w := compact_int_tail b0 in
      In (S w) [1; 3; 5; 9]%nat
      /\ ((List.length r < w)%nat -> unpack_compact_int (b0 :: r) = Raise StructError)
      /\ ((w <= List.length r)%nat ->
          let n := if (w =? 0)%nat then byte_to_Z b0
                   else int_from_bytes_little (firstn w r) in
          unpack_compact_int (b0 :: r) = Ok (Some (n, skipn w r))
          /\ 0 <= n < 2 ^ 64).
Proof.
  split; [reflexivity|]. intros x r.
  assert (Hwide : forall n : nat,
    In (S n) [3; 5; 9]%nat ->
    ((List.length r < n)%nat ->
     (let? v := Struct.unpack_le n (slice 1 (S n) (x :: r)) in
      Ok (Some (v, skipn (S n) (x :: r)))) = Raise StructError)
    /\ ((n <= List.length r)%nat ->
        (let? v := Struct.unpack_le n (slice 1 (S n) (x :: r)) in
         Ok (Some (v, skipn (S n) (x :: r))))
        = Ok (Some (int_from_bytes_little (firstn n r), skipn n r))
        /\ 0 <= int_from_bytes_little (firstn n r) < 2 ^ 64)).
  { intros n Hn.
    change (skipn (S n) (x :: r)) with (skipn n r).
    unfold slice. change (skipn 1 (x :: r)) with r.
    replace (S n - 1)%nat with n by lia.
    split; intros Hl.
    - rewrite (@unpack_le_firstn_short n r Hl). reflexivity.
    - destruct (@unpack_le_firstn n r Hl) as [Hu Hr]. rewrite Hu.
      split; [reflexivity|].
      assert (256 ^ Z.of_nat n <= 2 ^ 64).
      { cbn [In] in Hn. destruct Hn as [E|[E|[E|[]]]]; injection E as <-; cbn; lia. }
      lia. }
  unfold compact_int_tail. cbn [unpack_compact_int].
  pose proof (byte_to_Z_range x) as Hx.
  destruct (Z.ltb_spec (byte_to_Z x) 0xfd) as [H1|H1].
  { cbv zeta. cbn [Nat.eqb]. split; [cbn; auto|]. split; [intros Hl; lia|].
    intros _. split; [reflexivity|lia]. }
  destruct (Z.eqb_spec (byte_to_Z x) 0xfd) as [H2|H2].
  { cbv zeta. cbn [Nat.eqb]. split; [cbn; auto|]. apply (Hwide 2%nat). cbn. auto. }
  destruct (Z.eqb_spec (byte_to_Z x) 0xfe) as [H3|H3].
  { cbv zeta. cbn [Nat.eqb]. split; [cbn; auto|]. apply (Hwide 4%nat). cbn. auto. }
  destruct (Z.eqb_spec (byte_to_Z x) 0xff) as [H4|H4]; [|lia].
  cbv zeta. cbn [Nat.eqb]. split; [cbn; auto 6|]. apply (Hwide 8%nat). cbn. auto.
Qed.

Lemma unpack_compact_int_outcomes_witness :
  unpack_compact_int [xfd; x05] = Raise StructError
  /\ unpack_compact_int [xfd; x05; x01; x2a] = Ok (Some (261, [x2a]))
  /\ unpack_compact_int [x07; x2a] = Ok (Some (7, [x2a])).
Proof.
  split; [|split].
  - apply (proj2 unpack_compact_int_outcomes xfd [x05]). cbn. lia.
  - apply (proj2 unpack_compact_int_outcomes xfd [x05; x01; x2a]). cbn. lia.
  - apply (proj2 unpack_compact_int_outcomes x07 [x2a]). cbn. lia.
Defined.

(** X6. The reader accepts encodings the writer never produces: a
    value below [0xfd] behind the marker [0xfd] is read as that value,
    while [pack_compact_int] gives it one byte; reading and writing
    again does not give the bytes back. *)
Theorem unpack_compact_int_not_canonical (n : Z) (rest : bytes) :
  0 <= n < 0xfd ->
  unpack_compact_int (xfd :: byte_of_Z n :: x00 :: rest) = Ok (Some (n, rest))
  /\ pack_compact_int n = Ok [byte_of_Z n].
Proof.
  intros H. split.
  - cbn [unpack_compact_int]. change (byte_to_Z xfd) with 253.
    cbn [Z.ltb Z.eqb Z.compare Pos.compare Pos.compare_cont Pos.eqb].
    unfold slice, Struct.unpack_le.
    cbn [skipn Nat.sub firstn List.length Nat.eqb obind int_from_bytes_little].
    rewrite byte_to_Z_of_small by lia. change (byte_to_Z x00) with 0.
    replace (n + 256 * (0 + 256 * 0)) with n by lia. reflexivity.
  - unfold pack_compact_int. destruct (Z.ltb_spec n 0xfd); [|lia].
    apply (pack_le_ok 1). cbn. lia.
Qed.

Lemma unpack_compact_int_not_canonical_witness :
  unpack_compact_int (xfd :: byte_of_Z 5 :: x00 :: []) = Ok (Some (5, []))
  /\ pack_compact_int 5 = Ok [byte_of_Z 5].
Proof. apply unpack_compact_int_not_canonical. lia. Defined.

(** X7. [unpack_var_str] inverts [pack_var_str] on every byte string
    shorter than [2^64] and hands back the rest of the stream. *)
Theorem unpack_pack_var_str (s rest : bytes) :
  Z.of_nat (List.length s) < 2 ^ 64 ->
  exists b, pack_var_str s = Ok b /\ unpack_var_str (b ++ rest) = Ok (s, rest).
Proof.
  intros H.
  destruct (@compact_int_round_trip (Z.of_nat (List.length s)) (s ++ rest))
    as (b & Hp & Hu & _); [lia|].
  exists (b ++ s). unfold pack_var_str, unpack_var_str.
  rewrite Hp. cbn [obind]. split; [reflexivity|].
  rewrite <- app_assoc, Hu. cbn [obind unpack_pair].
  rewrite Nat2Z.id, firstn_exact_app, skipn_exact_app. reflexivity.
Qed.

Lemma unpack_pack_var_str_witness :
  exists b, pack_var_str [x0a; x0b] = Ok b
            /\ unpack_var_str (b ++ [x0c]) = Ok ([x0a; x0b], [x0c]).
Proof. apply unpack_pack_var_str. cbn. lia. Defined.

(** X8. [unpack_var_str] does not notice a payload shorter than its
    length prefix: it returns the bytes that are there and an empty
    remainder, and raises nothing. *)
Theorem unpack_var_str_truncated (n : Z) (s : bytes) :
  0 <= n < 2 ^ 64 -> Z.of_nat (List.length s) < n ->
  exists b, pack_compact_int n = Ok b /\ unpack_var_str (b ++ s) = Ok (s, []).
Proof.
  intros Hn Hs.
  destruct (@compact_int_round_trip n s Hn) as (b & Hp & Hu & _).
  exists b. split; [exact Hp|]. unfold unpack_var_str.
  rewrite Hu. cbn [obind unpack_pair].
  rewrite firstn_all2, skipn_all2 by lia. reflexivity.
Qed.

Lemma unpack_var_str_truncated_witness :
  exists b, pack_compact_int 5 = Ok b /\ unpack_var_str (b ++ [x0a; x0b]) = Ok ([x0a; x0b], []).
Proof. apply unpack_var_str_truncated; cbn; lia. Defined.

(** ** render_int *)

Lemma render_int_loop_step (fuel : nat) (n : Z) (r : list Z) :
  render_int_loop (S fuel) n r
  = if n =? 0 then Some r
    else render_int_loop fuel (Z.shiftr n 8) (r ++ [Z.land n 0xff]).
Proof. reflexivity. Qed.

(** The loop returns the digits of [n] after the ones it was given. *)
Lemma render_int_loop_digits (k : nat) :
  forall (n : Z) (r : list Z),
    0 <= n < 2 ^ Z.of_nat k ->
    render_int_loop (S k) n r = Some (r ++ le_digits k n).
Proof.
  induction k as [|k IH]; intros n r H.
  - assert (n = 0) by (cbn in H; lia). subst n. cbn. now rewrite app_nil_r.
  - rewrite render_int_loop_step. cbn [le_digits].
    destruct (Z.eqb_spec n 0) as [->|Hn].
    + now rewrite app_nil_r.
    + rewrite IH.
      * now rewrite <- app_assoc.
      * rewrite Z.shiftr_div_pow2 by lia.
        rewrite Nat2Z.inj_succ, Z.pow_succ_r in H by lia.
        split; [apply Z.div_pos; lia|].
        apply Z.div_lt_upper_bound; [lia|]. lia.
Qed.

Lemma render_int_fuel (n : Z) : 0 <= n -> 0 <= n < 2 ^ Z.of_nat (Z.to_nat (Z.log2 n + 1)).
Proof.
  intros H. rewrite Z2Nat.id by (pose proof (Z.log2_nonneg n); lia).
  destruct (Z.eq_dec n 0) as [->|Hn]; [cbn; lia|].
  pose proof (Z.log2_spec n ltac:(lia)) as [_ Hlt].
  replace (Z.log2 n + 1) with (Z.succ (Z.log2 n)) by lia. lia.
Qed.

Lemma le_digits_range (k : nat) : forall n, 0 <= n -> byte_ints (le_digits k n).
Proof.
  induction k as [|k IH]; intros n H; cbn [le_digits]; [constructor|].
  destruct (n =? 0); [constructor|]. constructor.
  - change 0xff with (Z.ones 8). rewrite Z.land_ones by lia.
    apply Z.mod_pos_bound. lia.
  - apply IH. rewrite Z.shiftr_div_pow2 by lia. apply Z.div_pos; lia.
Qed.

Lemma le_digits_value (k : nat) :
  forall n, 0 <= n < 2 ^ Z.of_nat k -> ints_value (le_digits k n) = n.
Proof.
  induction k as [|k IH]; intros n H.
  - cbn in *. lia.
  - cbn [le_digits]. destruct (Z.eqb_spec n 0) as [->|Hn]; [reflexivity|].
    cbn [ints_value]. rewrite IH.
    + change 0xff with (Z.ones 8). rewrite Z.land_ones, Z.shiftr_div_pow2 by lia.
      change (2 ^ 8) with 256. pose proof (Z.div_mod n 256 ltac:(lia)). lia.
    + rewrite Z.shiftr_div_pow2 by lia.
      rewrite Nat2Z.inj_succ, Z.pow_succ_r in H by lia.
      split; [apply Z.div_pos; lia|]. apply Z.div_lt_upper_bound; lia.
Qed.

Lemma le_digits_zero (k : nat) : le_digits k 0 = [].
Proof. destruct k; reflexivity. Qed.

(** The last digit of a positive number is not zero. *)
Lemma le_digits_last (k : nat) :
  forall n, 0 < n < 2 ^ Z.of_nat k ->
            exists i l, le_digits k n = i ++ [l] /\ 0 < l < 256.
Proof.
  induction k as [|k IH]; intros n H.
  - cbn in H. lia.
  - cbn [le_digits]. destruct (Z.eqb_spec n 0) as [->|Hn]; [lia|].
    rewrite Nat2Z.inj_succ, Z.pow_succ_r in H by lia.
    assert (Hd : 0 <= n / 256 < 2 ^ Z.of_nat k).
    { split; [apply Z.div_pos; lia|]. apply Z.div_lt_upper_bound; lia. }
    rewrite Z.shiftr_div_pow2 by lia. change (2 ^ 8) with 256.
    destruct (Z.eq_dec (n / 256) 0) as [E|E].
    + rewrite E, le_digits_zero. exists [], (Z.land n 0xff). split; [reflexivity|].
      change 0xff with (Z.ones 8). rewrite Z.land_ones by lia. change (2 ^ 8) with 256.
      pose proof (Z.div_mod n 256 ltac:(lia)).
      pose proof (Z.mod_pos_bound n 256 ltac:(lia)). lia.
    + destruct (IH (n / 256)) as (i & l & Hil & Hl); [lia|].
      rewrite Hil. exists (Z.land n 0xff :: i), l. split; [reflexivity|exact Hl].
Qed.

Lemma split_last_app (i : list Z) (l : Z) : split_last (i ++ [l]) = Some (i, l).
Proof.
  induction i as [|x i IH]; [reflexivity|].
  cbn [app split_last]. rewrite IH. destruct (i ++ [l]) eqn:E; [|reflexivity].
  destruct i; discriminate.
Qed.

Lemma ints_value_app (i : list Z) (l : Z) :
  ints_value (i ++ [l]) = ints_value i + 256 ^ Z.of_nat (List.length i) * l.
Proof.
  induction i as [|x i IH].
  - cbn [app ints_value List.length Z.of_nat]. rewrite Z.pow_0_r. lia.
  - cbn [app ints_value List.length]. rewrite IH, Nat2Z.inj_succ, Z.pow_succ_r by lia. lia.
Qed.

Lemma ints_value_bound (i : list Z) :
  byte_ints i -> 0 <= ints_value i < 256 ^ Z.of_nat (List.length i).
Proof.
  induction 1 as [|x i Hx _ IH]; [cbn; lia|].
  cbn [ints_value List.length]. rewrite Nat2Z.inj_succ, Z.pow_succ_r by lia. lia.
Qed.

Lemma bytes_of_ints_ok (l : list Z) :
  byte_ints l ->
  bytes_of_ints l = Ok (map byte_of_Z l)
  /\ int_from_bytes_little (map byte_of_Z l) = ints_value l.
Proof.
  induction 1 as [|x l Hx _ [IH1 IH2]]; [split; reflexivity|].
  cbn [bytes_of_ints map int_from_bytes_little ints_value].
  destruct (Z.leb_spec 0 x); [|lia]. destruct (Z.ltb_spec x 256); [|lia].
  cbn [andb]. rewrite IH1, IH2, byte_to_Z_of_small by lia. split; reflexivity.
Qed.

(** Bit 7 of a byte value. *)
Lemma byte_top_bit (l : Z) :
  0 <= l < 256 ->
  (Z.land l 0x80 =? 0) = (l <? 128)
  /\ (l < 128 -> Z.lor l 0x80 = l + 128).
Proof.
  intros H.
  assert (A : forallb (fun n => let l := Z.of_nat n in
               Bool.eqb (Z.land l 0x80 =? 0) (l <? 128)
               && ((128 <=? l) || (Z.lor l 0x80 =? l + 128)))
             (seq 0 256) = true) by (vm_compute; reflexivity).
  rewrite forallb_forall in A.
  specialize (A (Z.to_nat l)). rewrite Z2Nat.id in A by lia.
  assert (Hin : In (Z.to_nat l) (seq 0 256)) by (apply in_seq; lia).
  apply A in Hin. cbv zeta in Hin. apply andb_prop in Hin as [E1 E2].
  apply Bool.eqb_prop in E1. split; [exact E1|].
  intros Hl. apply orb_prop in E2 as [E2|E2]; [apply Z.leb_le in E2; lia|].
  now apply Z.eqb_eq in E2.
Qed.

Lemma byte_ints_app (a b : list Z) : byte_ints a -> byte_ints b -> byte_ints (a ++ b).
Proof. intros Ha Hb. apply Forall_app. split; assumption. Qed.

(** The two encodings of a magnitude [m > 0]: its digits [i ++ [l]],
    a zero byte after them for [m] when bit 7 of [l] is set; for [- m]
    bit 7 of [l] set, or the byte [0x80] after them. *)
Lemma render_int_forms (m : Z) :
  0 < m ->
  exists i l,
    byte_ints (i ++ [l]) /\ 0 < l < 256 /\ ints_value (i ++ [l]) = m
    /\ render_int m
       = Ok (map byte_of_Z (if l <? 128 then i ++ [l] else (i ++ [l]) ++ [0]))
    /\ render_int (- m)
       = Ok (map byte_of_Z (if l <? 128 then i ++ [l + 128] else (i ++ [l]) ++ [0x80])).
Proof.
  intros Hm.
  pose proof (@render_int_fuel m ltac:(lia)) as Hf.
  set (k := Z.to_nat (Z.log2 m + 1)) in *.
  destruct (@le_digits_last k m ltac:(lia)) as (i & l & Hil & Hl).
  pose proof (@le_digits_range k m ltac:(lia)) as Hr. rewrite Hil in Hr.
  pose proof (@le_digits_value k m Hf) as Hv. rewrite Hil in Hv.
  pose proof (@render_int_loop_digits k m [] Hf) as Hloop.
  cbn [app] in Hloop. rewrite Hil in Hloop.
  destruct (@byte_top_bit l ltac:(lia)) as [Hb Hor].
  assert (Hi : byte_ints i) by (apply Forall_app in Hr; tauto).
  exists i, l. split; [exact Hr|]. split; [exact Hl|]. split; [exact Hv|]. split.
  - unfold render_int. destruct (Z.ltb_spec m 0); [lia|]. fold k.
    rewrite Hloop, split_last_app, Hb.
    destruct (Z.ltb_spec l 128); cbn [negb].
    + apply bytes_of_ints_ok. exact Hr.
    + apply bytes_of_ints_ok. apply byte_ints_app; [exact Hr|]. repeat constructor; lia.
  - unfold render_int. destruct (Z.ltb_spec (- m) 0); [|lia].
    rewrite Z.opp_involutive. fold k.
    rewrite Hloop, split_last_app, Hb.
    destruct (Z.ltb_spec l 128) as [Hlt|Hge]; cbn [negb].
    + rewrite (Hor Hlt). apply bytes_of_ints_ok.
      apply byte_ints_app; [exact Hi|]. repeat constructor; lia.
    + apply bytes_of_ints_ok. apply byte_ints_app; [exact Hr|]. repeat constructor; lia.
Qed.

(** X9. For [n >= 0], [render_int(n)] is a little-endian encoding of
    [n] ([int.from_bytes(b, 'little') == n]); it is empty for 0, and
    for [n > 0] it has the least length that leaves the top bit of the
    last byte clear: [256^(len-1) <= 2n < 256^len]. *)
Theorem render_int_nonneg (n : Z) :
  0 <= n ->
  exists b,
    render_int n = Ok b
    /\ int_from_bytes_little b = n
    /\ (n = 0 -> b = [])
    /\ (0 < n ->
        256 ^ (Z.of_nat (List.length b) - 1) <= 2 * n < 256 ^ Z.of_nat (List.length b)).
Proof.
  intros H. destruct (Z.eq_dec n 0) as [->|Hn].
  { exists []. repeat split; try reflexivity; lia. }
  destruct (@render_int_forms n ltac:(lia)) as (i & l & Hr & Hl & Hv & Hpos & _).
  assert (Hi : byte_ints i) by (apply Forall_app in Hr; tauto).
  pose proof (ints_value_bound Hi) as Hvi.
  rewrite ints_value_app in Hv.
  set (P := 256 ^ Z.of_nat (List.length i)) in *.
  assert (HP : 0 < P) by (apply Z.pow_pos_nonneg; lia).
  eexists. split; [exact Hpos|].
  destruct (Z.ltb_spec l 128) as [Hlt|Hge].
  - assert (Hb : byte_ints (i ++ [l])) by exact Hr.
    destruct (bytes_of_ints_ok Hb) as [_ Hval].
    rewrite Hval, ints_value_app. fold P. split; [exact Hv|]. split; [lia|].
    intros _. rewrite length_map, length_app. cbn [List.length].
    rewrite Nat2Z.inj_add. change (Z.of_nat 1) with 1.
    replace (Z.of_nat (List.length i) + 1 - 1) with (Z.of_nat (List.length i)) by lia.
    rewrite Z.pow_add_r by lia. fold P. change (256 ^ 1) with 256. nia.
  - assert (Hb : byte_ints ((i ++ [l]) ++ [0])).
    { apply byte_ints_app; [exact Hr|]. repeat constructor; lia. }
    destruct (bytes_of_ints_ok Hb) as [_ Hval].
    rewrite Hval, ints_value_app, ints_value_app. fold P. split; [lia|]. split; [lia|].
    intros _. rewrite length_map, !length_app. cbn [List.length].
    rewrite !Nat2Z.inj_add. change (Z.of_nat 1) with 1.
    replace (Z.of_nat (List.length i) + 1 + 1 - 1) with (Z.of_nat (List.length i) + 1) by lia.
    rewrite !Z.pow_add_r by lia. fold P. change (256 ^ 1) with 256. nia.
Qed.

Lemma render_int_nonneg_witness :
  exists b,
    render_int 400000 = Ok b
    /\ int_from_bytes_little b = 400000
    /\ (400000 = 0 -> b = [])
    /\ (0 < 400000 ->
        256 ^ (Z.of_nat (List.length b) - 1) <= 2 * 400000
        < 256 ^ Z.of_nat (List.length b)).
Proof. apply render_int_nonneg. lia. Defined.

(** X10. For [n < 0], [render_int(n)] is [render_int(-n)] with bit 7
    of the last byte set: the same length, the sign in the top bit. *)
Theorem render_int_negative (n : Z) :
  n < 0 ->
  exists b x,
    render_int (- n) = Ok (b ++ [x])
    /\ byte_to_Z x < 128
    /\ render_int n = Ok (b ++ [byte_of_Z (byte_to_Z x + 128)]).
Proof.
  intros H.
  destruct (@render_int_forms (- n) ltac:(lia)) as (i & l & Hr & Hl & _ & Hpos & Hneg).
  rewrite Z.opp_involutive in Hneg.
  destruct (Z.ltb_spec l 128) as [Hlt|Hge].
  - exists (map byte_of_Z i), (byte_of_Z l).
    rewrite byte_to_Z_of_small by lia.
    rewrite Hpos, Hneg, !map_app. cbn [map].
    split; [reflexivity|]. split; [exact Hlt|reflexivity].
  - exists (map byte_of_Z (i ++ [l])), (byte_of_Z 0).
    rewrite byte_to_Z_of_small by lia.
    rewrite Hpos, Hneg, !map_app. cbn [map].
    split; [reflexivity|]. split; [lia|reflexivity].
Qed.

Lemma render_int_negative_witness :
  exists b x,
    render_int (- (-255)) = Ok (b ++ [x])
    /\ byte_to_Z x < 128
    /\ render_int (-255) = Ok (b ++ [byte_of_Z (byte_to_Z x + 128)]).
Proof. apply render_int_negative. lia. Defined.

(** ** Difficulty, reward and target bounds *)



(** X12. For the heights [-210000 <= height < 0] floor division makes
    the era [-1], the divisor [era + 1] is zero and [compute_reward]
    raises [ZeroDivisionError]. *)
Theorem compute_reward_negative_height (height : Z) :
  -210000 <= height < 0 -> compute_reward height = Raise ZeroDivisionError.
Proof.
  intros H. unfold compute_reward, floordiv_int. cbn [Z.eqb obind].
  assert (E : height / 210000 = -1).
  { symmetry. apply (Z.div_unique height 210000 (-1) (height + 210000)); lia. }
  rewrite E. reflexivity.
Qed.

Lemma compute_reward_negative_height_witness :
  compute_reward (-1) = Raise ZeroDivisionError.
Proof. apply compute_reward_negative_height. lia. Defined.

(** X13. For every 32-bit [bits] that decodes, the target lies between
    0 and [0xffffff * 256^252], the value [0xffffffff] decodes to. *)
Theorem decode_compact_target_bounds (bits t : Z) :
  u32 bits -> decode_compact_target bits = Ok t ->
  0 <= t <= 0xffffff * 256 ^ 252
  /\ decode_compact_target 0xffffffff = Ok (0xffffff * 256 ^ 252).
Proof.
  intros Hu Hd. destruct (decode_le_max Hu Hd) as [Hle Hmax].
  split; [|exact Hmax]. split; [|exact Hle].
  eapply decode_compact_target_nonneg; [|exact Hd]. destruct Hu. assumption.
Qed.

Lemma decode_compact_target_bounds_witness :
  0 <= 0xffff * 256 ^ 26 <= 0xffffff * 256 ^ 252
  /\ decode_compact_target 0xffffffff = Ok (0xffffff * 256 ^ 252).
Proof.
  apply (@decode_compact_target_bounds 0x1d00ffff).
  - unfold u32. lia.
  - reflexivity.
Defined.

(** * Further properties of block.py *)

(** ** BlockHeader *)

Lemma unpack_u32_app (i : Z) (rest : bytes) :
  u32 i -> unpack_u32 (int_to_bytes_little 4 i ++ rest) = Ok (i, rest).
Proof.
  intros H. assert (H' : 0 <= i < 256 ^ Z.of_nat 4) by exact H.
  destruct (unpack_le_pack_le 4 rest H') as [Hu Hs].
  unfold unpack_u32. rewrite slice_0, Hu. cbn [obind]. rewrite Hs. reflexivity.
Qed.

Lemma header_wire_length (h : BlockHeader.t) :
  List.length (header_wire h)
  = (16 + List.length (BlockHeader.prev_block_hash h)
     + List.length (BlockHeader.merkle_root_hash h))%nat.
Proof.
  unfold header_wire. rewrite !length_app, !int_to_bytes_little_length. lia.
Qed.

(** X14. Parsing then serializing: [BlockHeader.from_bytes] on at
    least 80 bytes returns a header and the bytes after the first 80,
    and [bytes(header)] is exactly those first 80 bytes. *)
Theorem header_parse_then_serialize (b : bytes) :
  (80 <= List.length b)%nat ->
  exists h,
    BlockHeader.from_bytes b = Ok (h, skipn 80 b)
    /\ BlockHeader.__bytes__ h = Ok (firstn 80 b).
Proof. apply header_round_trip. Qed.

Lemma header_parse_then_serialize_witness :
  exists h,
    BlockHeader.from_bytes ex_block_bytes = Ok (h, skipn 80 ex_block_bytes)
    /\ BlockHeader.__bytes__ h = Ok (firstn 80 ex_block_bytes).
Proof. apply header_parse_then_serialize. vm_compute. lia. Defined.

Lemma firstn_len_app (A : Type) (n : nat) (l r : list A) :
  List.length l = n -> firstn n (l ++ r) = l.
Proof. intros <-. apply firstn_exact_app. Qed.

Lemma skipn_len_app (A : Type) (n : nat) (l r : list A) :
  List.length l = n -> skipn n (l ++ r) = r.
Proof. intros <-. apply skipn_exact_app. Qed.

Lemma header_from_wire (h : BlockHeader.t) (rest : bytes) :
  header_u32 h ->
  List.length (BlockHeader.prev_block_hash h) = 32%nat ->
  List.length (BlockHeader.merkle_root_hash h) = 32%nat ->
  BlockHeader.from_bytes (header_wire h ++ rest) = Ok (h, rest).
Proof.
  intros (Hv & Ht & Hb & Hn) Hp Hr. destruct h as [v p r t bi n].
  cbn [BlockHeader.version BlockHeader.time BlockHeader.bits BlockHeader.nonce
       BlockHeader.prev_block_hash BlockHeader.merkle_root_hash] in *.
  unfold BlockHeader.from_bytes, header_wire.
  cbn [BlockHeader.version BlockHeader.time BlockHeader.bits BlockHeader.nonce
       BlockHeader.prev_block_hash BlockHeader.merkle_root_hash].
  rewrite <- !app_assoc.
  rewrite (unpack_u32_app _ Hv). cbn [obind]. cbv beta iota zeta.
  rewrite !slice_0.
  rewrite !(@skipn_len_app _ 32 p _ Hp), !(@firstn_len_app _ 32 p _ Hp).
  rewrite !(@skipn_len_app _ 32 r _ Hr), !(@firstn_len_app _ 32 r _ Hr).
  rewrite (unpack_u32_app _ Ht). cbn [obind]. cbv beta iota zeta.
  rewrite (unpack_u32_app _ Hb). cbn [obind]. cbv beta iota zeta.
  rewrite (unpack_u32_app rest Hn). reflexivity.
Qed.

(** X15. Serializing then parsing: a header with 32-bit integer fields
    and 32-byte hashes serializes to 80 bytes, and parsing them,
    followed by anything, gives the header back and the rest. *)
Theorem header_serialize_then_parse (h : BlockHeader.t) (rest : bytes) :
  header_u32 h ->
  List.length (BlockHeader.prev_block_hash h) = 32%nat ->
  List.length (BlockHeader.merkle_root_hash h) = 32%nat ->
  exists b,
    BlockHeader.__bytes__ h = Ok b /\ List.length b = 80%nat
    /\ BlockHeader.from_bytes (b ++ rest) = Ok (h, rest).
Proof.
  intros Hu Hp Hr. exists (header_wire h).
  split; [apply header_bytes_ok; exact Hu|].
  split; [rewrite header_wire_length, Hp, Hr; reflexivity|].
  apply header_from_wire; assumption.
Qed.

Lemma header_serialize_then_parse_witness :
  exists b,
    BlockHeader.__bytes__ (Block.block_header ex_block) = Ok b
    /\ List.length b = 80%nat
    /\ BlockHeader.from_bytes (b ++ [x03]) = Ok (Block.block_header ex_block, [x03]).
Proof.
  apply header_serialize_then_parse.
  - unfold header_u32, u32. vm_compute. intuition discriminate.
  - vm_compute. reflexivity.
  - vm_compute. reflexivity.
Defined.

Lemma unpack_u32_short (b : bytes) :
  (List.length b < 4)%nat -> unpack_u32 b = Raise StructError.
Proof.
  intros H. unfold unpack_u32, Struct.unpack_le. rewrite slice_0, length_firstn.
  destruct (Nat.eqb_spec (Nat.min 4 (List.length b)) 4); [lia|reflexivity].
Qed.

Lemma header_from_short (b : bytes) :
  (List.length b < 80)%nat -> BlockHeader.from_bytes b = Raise StructError.
Proof.
  intros H. unfold BlockHeader.from_bytes.
  destruct (Nat.lt_ge_cases (List.length b) 4) as [H0|H0].
  { rewrite unpack_u32_short by exact H0. reflexivity. }
  rewrite unpack_u32_ok by exact H0. cbn [obind]. cbv beta iota zeta.
  set (b1 := skipn 4 b).
  assert (L1 : List.length b1 = (List.length b - 4)%nat) by apply length_skipn.
  set (b2 := skipn 32 b1).
  assert (L2 : List.length b2 = (List.length b1 - 32)%nat) by apply length_skipn.
  set (b3 := skipn 32 b2).
  assert (L3 : List.length b3 = (List.length b2 - 32)%nat) by apply length_skipn.
  destruct (Nat.lt_ge_cases (List.length b3) 4) as [H3|H3].
  { rewrite (@unpack_u32_short b3) by exact H3. reflexivity. }
  rewrite (@unpack_u32_ok b3) by exact H3. cbn [obind]. cbv beta iota zeta.
  set (b4 := skipn 4 b3).
  assert (L4 : List.length b4 = (List.length b3 - 4)%nat) by apply length_skipn.
  destruct (Nat.lt_ge_cases (List.length b4) 4) as [H4|H4].
  { rewrite (@unpack_u32_short b4) by exact H4. reflexivity. }
  rewrite (@unpack_u32_ok b4) by exact H4. cbn [obind]. cbv beta iota zeta.
  rewrite (@unpack_u32_short (skipn 4 b4)); [reflexivity|].
  rewrite length_skipn. lia.
Qed.

(** X16. On fewer than 80 bytes [BlockHeader.from_bytes] raises
    [struct.error], wherever the stream ends: the two hash slices come
    out short without complaint and a later integer read fails. *)
Theorem header_from_bytes_truncated (b : bytes) :
  (List.length b < 80)%nat -> BlockHeader.from_bytes b = Raise StructError.
Proof. apply header_from_short. Qed.

Lemma header_from_bytes_truncated_witness :
  BlockHeader.from_bytes (firstn 79 ex_block_bytes) = Raise StructError.
Proof. apply header_from_bytes_truncated. vm_compute. lia. Defined.

(** ** compute_hash *)

(** X17. [compute_hash] depends on the last nonce only: a call made
    before, with any nonce and whether it returned or raised, changes
    neither the result nor the block a later call leaves. *)
Theorem compute_hash_last_nonce :
  (forall (b : Block.t) (n1 n2 : Z),
      BlockBase.compute_hash n2 (snd (BlockBase.compute_hash n1 b))
      = BlockBase.compute_hash n2 b)
  /\ (forall (c : CompactBlock.t) (n1 n2 : Z),
      BlockBase.compute_hash n2 (snd (BlockBase.compute_hash n1 c))
      = BlockBase.compute_hash n2 c).
Proof.
  split.
  - intros [hg [v p r t bi n] tg tx trs mt] n1 n2.
    unfold BlockBase.compute_hash. run_monad. cbn.
    destruct (BlockHeader.hash (BlockHeader.mk v p r t bi n1)); reflexivity.
  - intros [hg [v p r t bi n] tg me cb ms] n1 n2.
    unfold BlockBase.compute_hash. run_monad. cbn.
    destruct (BlockHeader.hash (BlockHeader.mk v p r t bi n1)); reflexivity.
Qed.

(** X18. A nonce outside 32 bits makes [compute_hash] raise
    [struct.error] after it has written the nonce: the block keeps the
    unusable nonce and its [hash] property raises as well. *)
Theorem compute_hash_bad_nonce (b : Block.t) (nonce : Z) :
  u32 (BlockHeader.version (Block.block_header b)) ->
  u32 (BlockHeader.time (Block.block_header b)) ->
  u32 (BlockHeader.bits (Block.block_header b)) ->
  nonce < 0 \/ 2 ^ 32 <= nonce ->
  let b' := Block.set_block_header
              (BlockHeader.set_nonce nonce (Block.block_header b)) b in
  BlockBase.compute_hash nonce b = (Raise StructError, b')
  /\ Block.hash b' = Raise StructError.
Proof.
  intros Hv Ht Hb Hn b'.
  assert (E : BlockHeader.hash (BlockHeader.set_nonce nonce (Block.block_header b))
              = Raise StructError).
  { unfold BlockHeader.hash, BlockHeader.__bytes__.
    cbn [BlockHeader.set_nonce BlockHeader.version BlockHeader.time BlockHeader.bits
         BlockHeader.nonce].
    rewrite (pack_u32_ok Hv), (pack_u32_ok Ht), (pack_u32_ok Hb). cbn [obind].
    unfold pack_u32, Struct.pack_le.
    destruct (Z.leb_spec 0 nonce); [|reflexivity].
    destruct (Z.ltb_spec nonce (256 ^ Z.of_nat 4)) as [H4|H4]; [|reflexivity].
    change (256 ^ Z.of_nat 4) with (2 ^ 32) in H4. lia. }
  split.
  - unfold BlockBase.compute_hash. run_monad.
    destruct b as [hg hd tg tx trs mt]. cbn in *. rewrite E. reflexivity.
  - unfold Block.hash, b'. destruct b as [hg hd tg tx trs mt]. cbn in *. exact E.
Qed.

Lemma compute_hash_bad_nonce_witness :
  BlockBase.compute_hash (2 ^ 32) ex_block
  = (Raise StructError,
     Block.set_block_header
       (BlockHeader.set_nonce (2 ^ 32) (Block.block_header ex_block)) ex_block).
Proof.
  apply (@compute_hash_bad_nonce ex_block (2 ^ 32));
    unfold u32; vm_compute; intuition discriminate.
Defined.

(** ** Block: construction and rebuild *)





Lemma last_node_some_exists (x : MerkleNode) (r : list MerkleNode) :
  exists z, last_node (x :: r) = Some z.
Proof.
  revert x. induction r as [|y r IH]; intros x; [eexists; reflexivity|].
  rewrite last_node_cons. apply IH.
Qed.

Lemma last_node_map_leaf (l : list Transaction) (d : Transaction) :
  l <> [] -> last_node (map leaf l) = Some (leaf (last l d)).
Proof.
  induction l as [|x l IH]; intros H; [contradiction|].
  destruct l as [|y l]; [reflexivity|].
  cbn [map]. rewrite last_node_cons. cbn [map] in IH. rewrite IH by discriminate.
  reflexivity.
Qed.

Lemma append_last_map_leaf (l : list Transaction) (d : Transaction) :
  l <> [] -> map leaf (l ++ [last l d]) = append_last (map leaf l).
Proof.
  intros H. unfold append_last. rewrite (last_node_map_leaf d H), map_app. reflexivity.
Qed.

Lemma append_last_length (l : list MerkleNode) :
  l <> [] -> List.length (append_last l) = S (List.length l).
Proof.
  intros H. unfold append_last. destruct l as [|x r]; [contradiction|].
  destruct (last_node_some_exists x r) as [z ->]. rewrite length_app. cbn. lia.
Qed.

(** A level of odd length and the same level with its last node
    repeated have the same next level. *)
Lemma next_level_append_last (l : list MerkleNode) :
  l <> [] -> Nat.odd (List.length l) = true ->
  next_level (append_last l) = next_level l.
Proof.
  intros Hne Ho. unfold next_level at 1. rewrite append_last_length by exact Hne.
  rewrite Nat.odd_succ, <- Nat.negb_odd, Ho. cbn [negb].
  unfold next_level. rewrite Ho. reflexivity.
Qed.

Lemma merkle_loop_step (fuel : nat) (x y : MerkleNode) (r : list MerkleNode) :
  merkle_loop (S fuel) (x :: y :: r) = merkle_loop fuel (next_level (x :: y :: r)).
Proof. reflexivity. Qed.

Lemma Block_init_of_loop (height version : Z) (prev : bytes) (time bits nonce tg : Z)
      (txns : list Transaction) (root : MerkleNode) :
  decode_compact_target bits = Ok tg ->
  merkle_loop (List.length txns) (map leaf txns) = Some root ->
  Block.__init__ height version prev time bits nonce txns
  = Ok (Block.mk (Some height)
                 (BlockHeader.mk version prev (Node.hash root) time bits nonce)
                 (Some tg) (Some txns) None (Some root)).
Proof.
  intros Hd Hloop. unfold Block.__init__, BlockBase.__init__. rewrite Hd. cbn [obind].
  unfold construct, Block.invalidate, Block.compute_merkle_tree, Block.getattr_txns.
  run_monad. cbn [Block.txns BlockBase.f_height BlockBase.f_block_header BlockBase.f_target].
  rewrite length_map, Hloop. reflexivity.
Qed.

(** X21. With an odd number (at least 3) of transactions, repeating
    the last transaction at the end of the list changes neither the
    merkle tree nor the header: two different transaction lists share
    one merkle root. *)
Theorem merkle_root_duplicate_last (height version : Z) (prev : bytes)
        (time bits nonce : Z) (t0 t1 : Transaction) (rest : list Transaction)
        (b : Block.t) :
  let l := t0 :: t1 :: rest in
  Nat.odd (List.length l) = true ->
  Block.__init__ height version prev time bits nonce l = Ok b ->
  exists b',
    Block.__init__ height version prev time bits nonce (l ++ [last l t0]) = Ok b'
    /\ Block.merkle_tree b' = Block.merkle_tree b
    /\ Block.block_header b' = Block.block_header b.
Proof.
  intros l Ho Hb.
  destruct (Block_init_inv _ _ _ _ _ _ _ Hb) as (root & tg & Hloop & Hd & ->).
  assert (Hne : l <> []) by discriminate.
  assert (Hloop' : merkle_loop (List.length (l ++ [last l t0]))
                               (map leaf (l ++ [last l t0])) = Some root).
  { rewrite (append_last_map_leaf t0 Hne), length_app, Nat.add_comm.
    cbn [List.length Nat.add].
    assert (Hml : map leaf l <> []) by discriminate.
    pose proof (@next_level_append_last (map leaf l) Hml) as Hnl.
    rewrite length_map in Hnl. specialize (Hnl Ho).
    change (merkle_loop (S (S (List.length rest)))
                        (leaf t0 :: leaf t1 :: map leaf rest) = Some root) in Hloop.
    rewrite merkle_loop_step in Hloop.
    change (leaf t0 :: leaf t1 :: map leaf rest) with (map leaf l) in Hloop.
    apply (@merkle_loop_more_fuel _ (List.length l)) in Hloop;
      [|unfold l; cbn [List.length]; lia].
    rewrite <- Hnl in Hloop.
    unfold l in Hloop |- *. cbn [map] in Hloop |- *.
    rewrite append_last_cons in Hloop |- *.
    destruct (append_last (leaf t1 :: map leaf rest)) as [|y r] eqn:E.
    { unfold append_last in E.
      destruct (last_node (leaf t1 :: map leaf rest)); discriminate. }
    rewrite merkle_loop_step. exact Hloop. }
  eexists. split; [exact (@Block_init_of_loop _ _ _ _ _ _ _ _ _ Hd Hloop')|].
  split; reflexivity.
Qed.

Lemma merkle_root_duplicate_last_witness :
  exists b',
    Block.__init__ 1 1 (zero_bytes 32) 0 0x1d00ffff 0
                   ([ex_coinbase; ex_t1; ex_t2] ++ [last [ex_coinbase; ex_t1; ex_t2] ex_coinbase])
    = Ok b'
    /\ Block.merkle_tree b' = Block.merkle_tree ex_block
    /\ Block.block_header b' = Block.block_header ex_block.
Proof.
  apply (@merkle_root_duplicate_last 1 1 (zero_bytes 32) 0 0x1d00ffff 0
           ex_coinbase ex_t1 [ex_t2] ex_block).
  - reflexivity.
  - exact ex_block_init_ok.
Defined.

(** ** Block: the coinbase setter in general *)

(** X22. On any block [Block(...)] built and any valid coinbase (one
    input, a [CoinbaseInput]) the setter replaces position 0 and then
    raises [AttributeError]: the getter returns the new coinbase while
    the header still carries the merkle root of the old transaction
    list. *)
Theorem coinbase_setter_raises_after_write (height version : Z) (prev : bytes)
        (time bits nonce : Z) (old cb_txn : Transaction) (i : Input)
        (tail : list Transaction) (b : Block.t) :
  Block.__init__ height version prev time bits nonce (old :: tail) = Ok b ->
  Txn.inputs cb_txn = [i] -> Txn.is_CoinbaseInput i = true ->
  let b' := Block.set_txns (cb_txn :: tail) b in
  Block.set_coinbase_transaction cb_txn b = (Raise AttributeError, b')
  /\ Block.coinbase_transaction b' = (Ok cb_txn, b')
  /\ spec_root (map Txn.hash (old :: tail))
     = Some (BlockHeader.merkle_root_hash (Block.block_header b')).
Proof.
  intros Hb Hi Hk b'.
  split; [eapply set_coinbase_transaction_stale; eassumption|].
  destruct (Block_init_inv _ _ _ _ _ _ _ Hb) as (root & tg & Hloop & _ & ->).
  split; [reflexivity|].
  cbn [b' Block.set_txns Block.block_header BlockHeader.merkle_root_hash].
  unfold spec_root. rewrite length_map, <- map_leaf_hash.
  rewrite <- (length_map leaf). apply merkle_loop_spec_root_within.
  rewrite length_map. exact Hloop.
Qed.

Lemma coinbase_setter_raises_after_write_witness :
  Block.set_coinbase_transaction ex_coinbase' ex_block
  = (Raise AttributeError, Block.set_txns [ex_coinbase'; ex_t1; ex_t2] ex_block).
Proof.
  apply (@coinbase_setter_raises_after_write 1 1 (zero_bytes 32) 0 0x1d00ffff 0
           ex_coinbase ex_coinbase' (CoinbaseInput [x02]) [ex_t1; ex_t2] ex_block).
  - exact ex_block_init_ok.
  - reflexivity.
  - reflexivity.
Defined.

(** X23. After that failure a call of [invalidate()] repairs the
    block: it returns, and the block is then exactly the one
    [Block(...)] builds from the new transaction list. *)
Theorem invalidate_after_setter (height version : Z) (prev : bytes)
        (time bits nonce : Z) (old cb_txn : Transaction) (tail : list Transaction)
        (b : Block.t) :
  Block.__init__ height version prev time bits nonce (old :: tail) = Ok b ->
  exists b2,
    Block.invalidate (Block.set_txns (cb_txn :: tail) b) = (Ok tt, b2)
    /\ Block.__init__ height version prev time bits nonce (cb_txn :: tail) = Ok b2.
Proof.
  intros Hb.
  destruct (Block_init_inv _ _ _ _ _ _ _ Hb) as (root & tg & _ & Hd & ->).
  match goal with |- exists b2, Block.invalidate ?s = _ /\ _ =>
    destruct (@invalidate_built s cb_txn tail eq_refl) as (root' & Hloop' & Hinv)
  end.
  eexists. split; [exact Hinv|].
  rewrite (@Block_init_of_loop height version prev time bits nonce tg _ root' Hd Hloop').
  reflexivity.
Qed.

Lemma invalidate_after_setter_witness :
  exists b2,
    Block.invalidate (Block.set_txns [ex_coinbase'; ex_t1; ex_t2] ex_block) = (Ok tt, b2)
    /\ ex_block_init ex_coinbase' = Ok b2.
Proof.
  apply (@invalidate_after_setter 1 1 (zero_bytes 32) 0 0x1d00ffff 0
           ex_coinbase ex_coinbase' [ex_t1; ex_t2] ex_block).
  exact ex_block_init_ok.
Defined.

Lemma invalidate_coinbase_at_raises_any :
  forall (n : MerkleNode) (restart : M Block.t unit) (b : Block.t),
    (forall b0, exists e, restart b0 = (Raise e, b0)) ->
    exists e, Block.invalidate_coinbase_at restart n b = (Raise e, b).
Proof.
  fix IH 1. intros [h [l|] [r|]] restart b Hr; cbn [Block.invalidate_coinbase_at]; unfold bind.
  - destruct (IH l restart b Hr) as [e ->]. eauto.
  - destruct (IH l restart b Hr) as [e ->]. eauto.
  - destruct (Hr b) as [e ->]. eauto.
  - eexists. reflexivity.
Qed.

(** X24. [invalidate_coinbase] never completes: for every block,
    whatever its tree, and every [merkle_node] argument it raises, and
    it has written nothing when it does. *)
Theorem invalidate_coinbase_never_returns (b : Block.t) (merkle_node : option MerkleNode) :
  exists e, Block.invalidate_coinbase merkle_node b = (Raise e, b).
Proof.
  unfold Block.invalidate_coinbase, bind, get.
  assert (Hroot : forall b0 : Block.t, exists e,
    match Block.merkle_tree b with
    | Some root => Block.invalidate_coinbase_at (raise RecursionError) root
    | None => raise AttributeError
    end b0 = (Raise e, b0)).
  { intros b0. destruct (Block.merkle_tree b) as [root|].
    - apply invalidate_coinbase_at_raises_any. intros b1. eexists. reflexivity.
    - eexists. reflexivity. }
  destruct merkle_node as [n|].
  - apply invalidate_coinbase_at_raises_any. exact Hroot.
  - apply Hroot.
Qed.

(** ** Block: serialization and parsing *)

(** X25. A truncated stream makes [Block.from_bytes] raise before any
    transaction is read: [struct.error] below 80 bytes, [IndexError]
    at exactly 80 bytes, where the transaction count is missing. *)
Theorem Block_from_bytes_truncated
        (parse : bytes -> outcome (Transaction * bytes)) (b : bytes) :
  ((List.length b < 80)%nat -> Block.from_bytes parse b = Raise StructError)
  /\ (List.length b = 80%nat -> Block.from_bytes parse b = Raise IndexError).
Proof.
  split; intros H; unfold Block.from_bytes.
  - rewrite header_from_short by exact H. reflexivity.
  - destruct (@header_round_trip b ltac:(lia)) as (h & Hh & _).
    rewrite Hh. cbn [obind]. rewrite skipn_all2 by lia. reflexivity.
Qed.

Lemma Block_from_bytes_truncated_witness :
  Block.from_bytes ex_Transaction_from_bytes (firstn 40 ex_block_bytes) = Raise StructError
  /\ Block.from_bytes ex_Transaction_from_bytes (firstn 80 ex_block_bytes) = Raise IndexError.
Proof.
  split.
  - apply (proj1 (Block_from_bytes_truncated ex_Transaction_from_bytes
                    (firstn 40 ex_block_bytes))). vm_compute. lia.
  - apply (proj2 (Block_from_bytes_truncated ex_Transaction_from_bytes
                    (firstn 80 ex_block_bytes))). vm_compute. reflexivity.
Defined.

(** X26. [bytes(block)] of a block with 32-bit header fields, 32-byte
    hashes and fewer than [2^64] transactions starts with a header and
    a count that the readers give back: [BlockHeader.from_bytes]
    returns the block's header, [unpack_compact_int] the number of
    transactions, and what is left is the concatenation of the
    transaction serializations. *)
Theorem Block_bytes_reads_back (b : Block.t) (l : list Transaction) :
  Block.txns b = Some l ->
  header_u32 (Block.block_header b) ->
  List.length (BlockHeader.prev_block_hash (Block.block_header b)) = 32%nat ->
  List.length (BlockHeader.merkle_root_hash (Block.block_header b)) = 32%nat ->
  Z.of_nat (List.length l) < 2 ^ 64 ->
  exists bs rest,
    Block.__bytes__ b = Ok bs
    /\ BlockHeader.from_bytes bs = Ok (Block.block_header b, rest)
    /\ unpack_compact_int rest
       = Ok (Some (Z.of_nat (List.length l), flat_map Txn.serialized l)).
Proof.
  intros Htx Hu Hp Hr Hl.
  destruct (@compact_int_round_trip (Z.of_nat (List.length l))
              (flat_map Txn.serialized l) ltac:(lia)) as (c & Hc & Hun & _).
  exists (header_wire (Block.block_header b) ++ c ++ flat_map Txn.serialized l),
         (c ++ flat_map Txn.serialized l).
  split.
  - unfold Block.__bytes__. rewrite (header_bytes_ok Hu), Htx. cbn [obind].
    rewrite Hc. reflexivity.
  - split; [apply header_from_wire; assumption|exact Hun].
Qed.

Lemma Block_bytes_reads_back_witness :
  exists bs rest,
    Block.__bytes__ ex_block = Ok bs
    /\ BlockHeader.from_bytes bs = Ok (Block.block_header ex_block, rest)
    /\ unpack_compact_int rest
       = Ok (Some (Z.of_nat (List.length [ex_coinbase; ex_t1; ex_t2]),
                   flat_map Txn.serialized [ex_coinbase; ex_t1; ex_t2])).
Proof.
  apply (@Block_bytes_reads_back ex_block [ex_coinbase; ex_t1; ex_t2]).
  - vm_compute. reflexivity.
  - unfold header_u32, u32. vm_compute. intuition discriminate.
  - vm_compute. reflexivity.
  - vm_compute. reflexivity.
  - cbn. lia.
Defined.

(** ** CompactBlock *)

Lemma edge_root_snoc (h : bytes) (e : list bytes) (x : bytes) :
  edge_root h (e ++ [x]) = dhash (edge_root h e ++ x).
Proof. unfold edge_root. rewrite fold_left_app. reflexivity. Qed.

(** Folding the left edge from the leftmost leaf gives the root. *)
Lemma edge_root_left_edge :
  forall n : MerkleNode,
    consistent n -> edge_root (leftmost_hash n) (left_edge n) = Node.hash n.
Proof.
  fix IH 1. intros [h [l|] [r|]] Hc; cbn [consistent] in Hc; try contradiction.
  - destruct Hc as (Hh & Hl & _).
    cbn [left_edge leftmost_hash Node.hash].
    rewrite edge_root_snoc, (IH l Hl). symmetry. exact Hh.
  - reflexivity.
Qed.

Lemma spec_update_left_edge_shape (new_hash : bytes) :
  forall n : MerkleNode,
    consistent n ->
    consistent (spec_update_left_edge new_hash n)
    /\ left_edge (spec_update_left_edge new_hash n) = left_edge n
    /\ leftmost_hash (spec_update_left_edge new_hash n) = new_hash.
Proof.
  fix IH 1. intros [h [l|] [r|]] Hc; cbn [consistent] in Hc; try contradiction.
  - destruct Hc as (_ & Hl & Hr). destruct (IH l Hl) as (Hc' & He & Hm).
    cbn [spec_update_left_edge consistent left_edge leftmost_hash Node.hash].
    rewrite He, Hm. repeat split; assumption.
  - cbn. repeat split.
Qed.

Lemma compact_setter_state (c : CompactBlock.t) (cb_txn : Transaction) :
  header_u32 (CompactBlock.block_header c) ->
  let hdr := BlockHeader.set_merkle_root_hash
               (edge_root (Txn.hash cb_txn) (CompactBlock.merkle_edge c))
               (CompactBlock.block_header c) in
  CompactBlock.set_coinbase_transaction cb_txn c
  = (Ok tt,
     CompactBlock.mk (CompactBlock.height c) hdr (CompactBlock.target c)
                     (CompactBlock.merkle_edge c) (Some cb_txn)
                     (Some (packed_midstate hdr))).
Proof.
  intros Hu hdr.
  unfold CompactBlock.set_coinbase_transaction, CompactBlock._complete_merkle_edge,
    CompactBlock._compute_midstate.
  run_monad. destruct c as [hg bh tg me cb ms].
  cbn [CompactBlock.set_cb_txn CompactBlock._cb_txn CompactBlock.merkle_edge
       CompactBlock.block_header CompactBlock.set_block_header CompactBlock.height
       CompactBlock.target CompactBlock._midstate] in *.
  fold (edge_root (Txn.hash cb_txn) me). fold hdr.
  rewrite (@header_bytes_ok hdr) by exact Hu.
  rewrite pack_midstate_ok. reflexivity.
Qed.

(** X27. A [CompactBlock] whose merkle edge is the left edge of a
    block's tree reaches, for any new coinbase, the merkle root a full
    [Block] over the new coinbase and the same other transactions
    has. *)
Theorem compact_root_is_block_root (height version : Z) (prev : bytes)
        (time bits nonce : Z) (cb cb' : Transaction) (tail : list Transaction)
        (b : Block.t) (root : MerkleNode) (c : CompactBlock.t) :
  Block.__init__ height version prev time bits nonce (cb :: tail) = Ok b ->
  Block.merkle_tree b = Some root ->
  CompactBlock.merkle_edge c = left_edge root ->
  header_u32 (CompactBlock.block_header c) ->
  exists b' c',
    Block.__init__ height version prev time bits nonce (cb' :: tail) = Ok b'
    /\ CompactBlock.set_coinbase_transaction cb' c = (Ok tt, c')
    /\ BlockHeader.merkle_root_hash (CompactBlock.block_header c')
       = BlockHeader.merkle_root_hash (Block.block_header b').
Proof.
  intros Hb Ht He Hu.
  destruct (Block_init_inv _ _ _ _ _ _ _ Hb) as (root0 & tg & Hloop & Hd & ->).
  cbn [Block.merkle_tree] in Ht. injection Ht as ->.
  assert (Hc : consistent root).
  { eapply merkle_loop_consistent; [|exact Hloop]. apply leaves_consistent. }
  pose proof (@spec_update_left_edge_rebuild cb cb' tail root Hloop) as Hloop'.
  destruct (@spec_update_left_edge_shape (Txn.hash cb') root Hc) as (Hc' & He' & Hm').
  eexists. eexists.
  split; [exact (@Block_init_of_loop _ _ _ _ _ _ _ _ _ Hd Hloop')|].
  split; [exact (@compact_setter_state c cb' Hu)|].
  cbn [CompactBlock.block_header Block.block_header BlockHeader.merkle_root_hash
       BlockHeader.set_merkle_root_hash].
  rewrite He, <- He', <- Hm' at 1. apply edge_root_left_edge. exact Hc'.
Qed.

Lemma compact_root_is_block_root_witness :
  exists b' c',
    ex_block_init ex_coinbase' = Ok b'
    /\ CompactBlock.set_coinbase_transaction ex_coinbase'
         (CompactBlock.mk 1 (BlockHeader.mk 1 (zero_bytes 32) (zero_bytes 32) 0 0x1d00ffff 0)
            0 (match Block.merkle_tree ex_block with
               | Some r => left_edge r | None => [] end) None None)
       = (Ok tt, c')
    /\ BlockHeader.merkle_root_hash (CompactBlock.block_header c')
       = BlockHeader.merkle_root_hash (Block.block_header b').
Proof.
  destruct (Block.merkle_tree ex_block) as [r|] eqn:E; [|vm_compute in E; discriminate E].
  apply (@compact_root_is_block_root 1 1 (zero_bytes 32) 0 0x1d00ffff 0
           ex_coinbase ex_coinbase' [ex_t1; ex_t2] ex_block r).
  - exact ex_block_init_ok.
  - exact E.
  - reflexivity.
  - unfold header_u32, u32. vm_compute. intuition discriminate.
Defined.

(** X28. The coinbase setter of a [CompactBlock] keeps nothing of an
    earlier coinbase: setting one coinbase and then another leaves the
    block exactly as setting the second alone does. *)
Theorem compact_setter_last_write (c : CompactBlock.t) (cb1 cb2 : Transaction) :
  header_u32 (CompactBlock.block_header c) ->
  exists c1,
    CompactBlock.set_coinbase_transaction cb1 c = (Ok tt, c1)
    /\ CompactBlock.set_coinbase_transaction cb2 c1
       = CompactBlock.set_coinbase_transaction cb2 c.
Proof.
  intros Hu. eexists. split; [exact (@compact_setter_state c cb1 Hu)|].
  rewrite (@compact_setter_state c cb2 Hu).
  rewrite compact_setter_state.
  - destruct c as [hg [v p r t bi n] tg me cb ms]. reflexivity.
  - destruct c as [hg [v p r t bi n] tg me cb ms]. exact Hu.
Qed.

Lemma compact_setter_last_write_witness :
  exists c1,
    CompactBlock.set_coinbase_transaction ex_coinbase ex_compact = (Ok tt, c1)
    /\ CompactBlock.set_coinbase_transaction ex_coinbase' c1
       = CompactBlock.set_coinbase_transaction ex_coinbase' ex_compact.
Proof.
  apply compact_setter_last_write.
  unfold header_u32, u32. vm_compute. intuition discriminate.
Defined.

Lemma edge_root_length (e : list bytes) :
  forall h, List.length h = 32%nat -> List.length (edge_root h e) = 32%nat.
Proof.
  induction e as [|x e IH]; intros h Hh; [exact Hh|].
  unfold edge_root. cbn [fold_left]. apply IH. apply dhash_length.
Qed.

(** The first 64 header bytes do not contain time, bits or nonce. *)
Lemma header_prefix_set_nonce (h : BlockHeader.t) (n : Z) :
  (60 <= List.length (BlockHeader.prev_block_hash h)
         + List.length (BlockHeader.merkle_root_hash h))%nat ->
  slice 0 64 (header_wire (BlockHeader.set_nonce n h)) = slice 0 64 (header_wire h).
Proof.
  intros H. rewrite !slice_0. unfold header_wire. destruct h as [v p r t bi n0].
  cbn [BlockHeader.set_nonce BlockHeader.version BlockHeader.time BlockHeader.bits
       BlockHeader.nonce BlockHeader.prev_block_hash BlockHeader.merkle_root_hash] in *.
  rewrite !(app_assoc (int_to_bytes_little 4 v)).
  rewrite !(app_assoc (int_to_bytes_little 4 v ++ p)).
  set (pre := (int_to_bytes_little 4 v ++ p) ++ r).
  assert (L : (64 <= List.length pre)%nat).
  { unfold pre. rewrite !length_app, int_to_bytes_little_length. lia. }
  rewrite !firstn_app.
  replace (64 - List.length pre)%nat with 0%nat by lia. reflexivity.
Qed.

Lemma packed_midstate_set_nonce (h : BlockHeader.t) (n : Z) :
  (60 <= List.length (BlockHeader.prev_block_hash h)
         + List.length (BlockHeader.merkle_root_hash h))%nat ->
  packed_midstate (BlockHeader.set_nonce n h) = packed_midstate h.
Proof.
  intros H. unfold packed_midstate. rewrite (header_prefix_set_nonce _ n H). reflexivity.
Qed.

(** X29. The cached midstate stays valid through the nonce search:
    after the setter, [compute_hash(nonce)] returns and changes the
    header, and the stored [_midstate] is still the packed midstate of
    the first 64 bytes of the header as it is then (32-byte previous
    hash and coinbase hash). *)
Theorem midstate_valid_after_compute_hash (c : CompactBlock.t) (cb_txn : Transaction)
        (nonce : Z) :
  header_u32 (CompactBlock.block_header c) ->
  List.length (BlockHeader.prev_block_hash (CompactBlock.block_header c)) = 32%nat ->
  List.length (Txn.hash cb_txn) = 32%nat ->
  u32 nonce ->
  exists c1 c2 h,
    CompactBlock.set_coinbase_transaction cb_txn c = (Ok tt, c1)
    /\ BlockBase.compute_hash nonce c1 = (Ok h, c2)
    /\ BlockHeader.nonce (CompactBlock.block_header c2) = nonce
    /\ CompactBlock._midstate c2
       = Some (packed_midstate (CompactBlock.block_header c2)).
Proof.
  intros Hu Hp Hh Hn.
  destruct c as [hg [v p r t bi n] tg me cb ms].
  cbn [CompactBlock.block_header BlockHeader.prev_block_hash] in *.
  eexists. eexists. eexists.
  split; [exact (@compact_setter_state
            (CompactBlock.mk hg (BlockHeader.mk v p r t bi n) tg me cb ms) cb_txn Hu)|].
  cbn [CompactBlock.block_header CompactBlock.height CompactBlock.target
       CompactBlock.merkle_edge BlockHeader.set_merkle_root_hash BlockHeader.version
       BlockHeader.prev_block_hash BlockHeader.time BlockHeader.bits BlockHeader.nonce].
  split.
  - match goal with |- BlockBase.compute_hash _ ?s = _ =>
      apply (@compute_hash_ok CompactBlock.t _ _ s nonce) end.
    destruct Hu as (Hv & Ht & Hb & _). exact (conj Hv (conj Ht (conj Hb Hn))).
  - split; [reflexivity|].
    cbn [CompactBlock._midstate CompactBlock.set_block_header CompactBlock.block_header
         BlockBase.set_block_header BlockBase.block_header CompactBlock.base].
    rewrite packed_midstate_set_nonce; [reflexivity|].
    cbn [BlockHeader.prev_block_hash BlockHeader.merkle_root_hash
         BlockHeader.set_merkle_root_hash].
    rewrite Hp, (edge_root_length me _ Hh). lia.
Qed.

Lemma midstate_valid_after_compute_hash_witness :
  exists c1 c2 h,
    CompactBlock.set_coinbase_transaction ex_coinbase ex_compact = (Ok tt, c1)
    /\ BlockBase.compute_hash 12345 c1 = (Ok h, c2)
    /\ BlockHeader.nonce (CompactBlock.block_header c2) = 12345
    /\ CompactBlock._midstate c2
       = Some (packed_midstate (CompactBlock.block_header c2)).
Proof.
  apply midstate_valid_after_compute_hash.
  - unfold header_u32, u32. vm_compute. intuition discriminate.
  - vm_compute. reflexivity.
  - unfold ex_coinbase, ex_tx. cbn [Txn.hash]. apply dhash_length.
  - unfold u32. lia.
Defined.
